(** * Minesweeper: the knowledge base of the automated player

    A shallow embedding of [minesweeper.py] (classes [Sentence] and
    [MinesweeperAI]) and the properties of its inference engine.

    Python integers are unbounded, so counts and coordinates are [Z].
    A cell is a pair [(row, col)]; a Python [set] of cells is a [gset cell],
    whose equality is extensional like Python's [==] on sets.  The list
    [self.knowledge] is a [list Sentence]: every [Sentence] in it owns its
    own [cells] set (the constructor copies with [set(cells)]), so in-place
    mutation of the sentences is a [map] over the list. *)

From stdpp Require Import numbers list sets fin_sets gmap.

Local Open Scope Z_scope.

(** A coordinate [(row, col)]. *)
Notation cell := (Z * Z)%type.

(** [range(a, b)] for the integers the code iterates over. *)
Definition range (a b : Z) : list Z :=
  (λ k : nat, a + Z.of_nat k) <$> seq 0 (Z.to_nat (b - a)).

(** The nine positions visited by the nested loops
    [for i in range(cell[0] - 1, cell[0] + 2)] and
    [for j in range(cell[1] - 1, cell[1] + 2)], in that order. *)
Definition block (c : cell) : list cell :=
  i ← range (c.1 - 1) (c.1 + 2); j ← range (c.2 - 1) (c.2 + 2); [(i, j)].

(** ** class Minesweeper (the board)

    The constructor sets [board[i][j] = True] exactly when it adds [(i, j)]
    to [self.mines], so the board is represented by that set: reading
    [self.board[i][j]] at an in-bounds position is [(i, j) ∈ mines]. *)

Module Minesweeper.

Record game : Type := Game { height : Z; width : Z; mines : gset cell }.

Definition nearby_step (self : game) (c : cell) (cnt : Z) (ij : cell) : Z :=
  if bool_decide (ij = c) then cnt
  else if bool_decide (0 ≤ ij.1 < height self)
          && bool_decide (0 ≤ ij.2 < width self)
  then (if bool_decide (ij ∈ mines self) then cnt + 1 else cnt)
  else cnt.

Definition nearby_mines (self : game) (c : cell) : Z :=
  foldl (nearby_step self c) 0 (block c).

(** The exits of the constructor by an exception: the two explicit
    [raise ValueError], the [OverflowError] of [total_cells * 0.5] when
    [total_cells] is too large to convert to a float, and the [ValueError]
    of [random.randrange(height)] on an empty range. *)
Inductive init_error : Type :=
  | NegativeMines
  | TooManyMines
  | FloatOverflow
  | EmptyRange.

(** The least integer that does not convert to a float: halfway between
    the largest double, [2^1024 - 2^971], and [2^1024], where rounding to
    even goes up. *)
Definition float_limit : Z := 2 ^ 1024 - 2 ^ 970.

(** How a call of the constructor ends when the generator delivers the
    pairs [draws]: an exception, the new board, or the placement loop still
    running when the draws are used up. *)
Inductive init_outcome : Type :=
  | Raised (e : init_error)
  | Built (g : game)
  | Starved.

(** [while len(self.mines) != mines:] draw [(i, j)] and place a mine there
    unless [board[i][j]] is set already. *)
Fixpoint place (draws : list cell) (n : Z) (placed : gset cell)
  : option (gset cell) :=
  match draws with
  | [] => if bool_decide (Z.of_nat (size placed) = n) then Some placed else None
  | ij :: rest =>
      if bool_decide (Z.of_nat (size placed) = n) then Some placed
      else if bool_decide (ij ∈ placed) then place rest n placed
      else place rest n ({[ij]} ∪ placed)
  end.

(** [__init__(height, width, mines)].  The [print]s are left out; of the
    test [mines > total_cells * 0.5] that guards the first of them, the
    conversion of [total_cells] to a float is kept, because it can raise.
    [draws] are the pairs [(randrange(height), randrange(width))] the
    generator returns, each within its range. *)
Definition init (h w n : Z) (draws : list cell) : init_outcome :=
  let total_cells := h * w in
  if bool_decide (n < 0) then Raised NegativeMines
  else if bool_decide (total_cells ≤ n) then Raised TooManyMines
  else if bool_decide (float_limit ≤ total_cells) then Raised FloatOverflow
  else if bool_decide (0 < n) then
    if bool_decide (h ≤ 0) then Raised EmptyRange
    else match place draws n ∅ with
         | Some M => Built (Game h w M)
         | None => Starved
         end
  else Built (Game h w ∅).

End Minesweeper.

(** ** class Sentence *)

Record sentence : Type := Sentence_init { cells : gset cell; count : Z }.

Module Sentence.

(** [__eq__]: equal cell sets and equal counts. *)
Definition eq (self other : sentence) : bool :=
  bool_decide (cells self = cells other) && bool_decide (count self = count other).

(** [len(self.cells) == self.count] *)
Definition known_mines (self : sentence) : gset cell :=
  if bool_decide (Z.of_nat (size (cells self)) = count self)
  then cells self else ∅.

Definition known_safes (self : sentence) : gset cell :=
  if bool_decide (count self = 0) then cells self else ∅.

Definition mark_mine (c : cell) (self : sentence) : sentence :=
  if bool_decide (c ∈ cells self)
  then Sentence_init (cells self ∖ {[c]}) (count self - 1)
  else self.

Definition mark_safe (c : cell) (self : sentence) : sentence :=
  if bool_decide (c ∈ cells self)
  then Sentence_init (cells self ∖ {[c]}) (count self)
  else self.

End Sentence.

(** [x in l] on a Python list of sentences compares with [__eq__]. *)
Definition sentence_in (s : sentence) (l : list sentence) : bool :=
  existsb (Sentence.eq s) l.

(** ** class MinesweeperAI *)

Record AI : Type := AI_init {
  height : Z;
  width : Z;
  moves_made : gset cell;
  mines : gset cell;
  safes : gset cell;
  knowledge : list sentence
}.

Module MinesweeperAI.

(** [__init__(height, width)] *)
Definition init (h w : Z) : AI := AI_init h w ∅ ∅ ∅ [].

Definition mark_mine (c : cell) (self : AI) : AI :=
  AI_init (height self) (width self) (moves_made self)
          ({[c]} ∪ mines self) (safes self)
          (Sentence.mark_mine c <$> knowledge self).

Definition mark_safe (c : cell) (self : AI) : AI :=
  AI_init (height self) (width self) (moves_made self)
          (mines self) ({[c]} ∪ safes self)
          (Sentence.mark_safe c <$> knowledge self).

(** *** update_knowledge: one pass of the [while changed] loop *)

(** First [for]: gather the obvious mines and safes of every sentence. *)
Definition extract_step (acc : gset cell * gset cell) (s : sentence)
  : gset cell * gset cell :=
  let m := Sentence.known_mines s in
  let f := Sentence.known_safes s in
  let nm := if bool_decide (m ≠ ∅) then acc.1 ∪ m else acc.1 in
  let ns := if bool_decide (f ≠ ∅) then acc.2 ∪ f else acc.2 in
  (nm, ns).

Definition extract (k : list sentence) : gset cell * gset cell :=
  foldl extract_step (∅, ∅) k.

(** [for mine in new_mines: if mine not in self.mines: ...] *)
Definition mark_mine_step (acc : AI * bool) (c : cell) : AI * bool :=
  if bool_decide (c ∉ mines acc.1) then (mark_mine c acc.1, true) else acc.

Definition mark_safe_step (acc : AI * bool) (c : cell) : AI * bool :=
  if bool_decide (c ∉ safes acc.1) then (mark_safe c acc.1, true) else acc.

(** [self.knowledge = [s for s in self.knowledge if s.cells]] *)
Definition prune (self : AI) : AI :=
  AI_init (height self) (width self) (moves_made self) (mines self)
          (safes self)
          (filter (λ s, cells s ≠ ∅) (knowledge self)).

(** Body of the inner [for sentence2] loop; [new] is [new_sentences]. *)
Definition combine_step (k : list sentence) (s1 : sentence)
    (new : list sentence) (s2 : sentence) : list sentence :=
  if negb (Sentence.eq s1 s2)
     && bool_decide (cells s2 ⊆ cells s1)
     && bool_decide (cells s2 ≠ ∅)
  then
    let new_cells := cells s1 ∖ cells s2 in
    let new_count := count s1 - count s2 in
    if bool_decide (0 ≤ new_count) then
      let new_sentence := Sentence_init new_cells new_count in
      if negb (sentence_in new_sentence k)
         && negb (sentence_in new_sentence new)
      then new ++ [new_sentence]
      else new
    else new
  else new.

Definition combine (k : list sentence) : list sentence :=
  foldl (λ new s1, foldl (combine_step k s1) new k) [] k.

(** One iteration: the resulting object and the final value of
    [changed].  [changed] is set by a marking, or by an append to
    [new_sentences].  The sets [new_mines] and [new_safes] are iterated in
    the order of [elements]; the result is the same for every other
    order, as proved below. *)
Definition pass (self : AI) : AI * bool :=
  let '(new_mines, new_safes) := extract (knowledge self) in
  let r1 := foldl mark_mine_step (self, false) (elements new_mines) in
  let r2 := foldl mark_safe_step r1 (elements new_safes) in
  let st := prune r2.1 in
  let new_sentences := combine (knowledge st) in
  (AI_init (height st) (width st) (moves_made st) (mines st) (safes st)
           (knowledge st ++ new_sentences),
   r2.2 || negb (bool_decide (new_sentences = []))).

(** The [while changed] loop; [None] when [fuel] passes were not
    enough to reach a pass that changes nothing. *)
Fixpoint update_knowledge (fuel : nat) (self : AI) : option AI :=
  match fuel with
  | O => None
  | S n =>
      let '(st, changed) := pass self in
      if changed then update_knowledge n st else Some st
  end.

(** *** add_knowledge *)

Definition in_bounds (self : AI) (c : cell) : bool :=
  bool_decide (0 ≤ c.1 < height self) && bool_decide (0 ≤ c.2 < width self).

(** Loop body: [acc] is [(neighbors, already_known_mines)]. *)
Definition scan_step (self : AI) (c : cell) (acc : gset cell * Z)
    (ij : cell) : gset cell * Z :=
  if bool_decide (ij = c) then acc
  else if in_bounds self ij then
    if bool_decide (ij ∈ mines self) then (acc.1, acc.2 + 1)
    else if bool_decide (ij ∉ safes self) then ({[ij]} ∪ acc.1, acc.2)
    else acc
  else acc.

Definition scan (self : AI) (c : cell) : gset cell * Z :=
  foldl (scan_step self c) (∅, 0) (block c).

(** Everything before the call of [update_knowledge]. *)
Definition record_clue (c : cell) (n : Z) (self : AI) : AI :=
  let st := mark_safe c
    (AI_init (height self) (width self) ({[c]} ∪ moves_made self)
             (mines self) (safes self) (knowledge self)) in
  let '(neighbors, already_known_mines) := scan st c in
  let remaining_count := n - already_known_mines in
  if bool_decide (neighbors ≠ ∅)
  then AI_init (height st) (width st) (moves_made st) (mines st) (safes st)
               (knowledge st ++ [Sentence_init neighbors remaining_count])
  else st.

Definition add_knowledge (fuel : nat) (c : cell) (n : Z) (self : AI)
  : option AI :=
  update_knowledge fuel (record_clue c n self).

(** *** Move selection *)

(** [set(itertools.product(range(height), range(width)))] *)
Definition all_cells (self : AI) : gset cell :=
  list_to_set (i ← range 0 (height self); j ← range 0 (width self); [(i, j)]).

(** [for move in self.safes: if move not in self.moves_made: return move];
    [order] is the order in which the set is iterated. *)
Definition make_safe_move (order : list cell) (self : AI) : option cell :=
  find (λ move, bool_decide (move ∉ moves_made self)) order.

(** [random.choice] picks the element at a random index below the
    length; [rnd] is the number drawn. *)
Definition make_random_move (rnd : nat) (self : AI) : option cell :=
  let possible_moves := elements (all_cells self ∖ moves_made self ∖ mines self) in
  match possible_moves with
  | [] => None
  | _ => possible_moves !! (rnd `mod` length possible_moves)%nat
  end.

End MinesweeperAI.


(** ** Specification vocabulary *)

(** A sentence agrees with the mine placement [M] when its count is the
    number of its cells that are mines. *)
Definition sentence_ok (M : gset cell) (s : sentence) : Prop :=
  count s = Z.of_nat (size (cells s ∩ M)).

Definition knowledge_ok (M : gset cell) (st : AI) : Prop :=
  Forall (sentence_ok M) (knowledge st).

(** The knowledge base agrees with [M]: proven mines are mines, proven
    safes are not, and every sentence agrees. *)
Definition consistent (M : gset cell) (st : AI) : Prop :=
  mines st ⊆ M ∧ safes st ## M ∧ knowledge_ok M st.

(** A clue the turn loop can deliver for game [g]: the cell is on the
    board, is not a mine, and the number is the board's answer. *)
Definition valid_clue (g : Minesweeper.game) (c : cell) (n : Z) : Prop :=
  (0 ≤ c.1 < Minesweeper.height g) ∧ (0 ≤ c.2 < Minesweeper.width g) ∧
  (c ∉ Minesweeper.mines g) ∧
  n = Minesweeper.nearby_mines g c.

(** States of the player during a game on [g]: a fresh player of the
    board's size, then any number of completed [add_knowledge] calls with
    clues of [g]. *)
Inductive reachable (g : Minesweeper.game) : AI → Prop :=
  | reachable_init :
      reachable g (MinesweeperAI.init (Minesweeper.height g) (Minesweeper.width g))
  | reachable_add st st' c n fuel :
      reachable g st →
      valid_clue g c n →
      MinesweeperAI.add_knowledge fuel c n st = Some st' →
      reachable g st'.

(** The candidate of the subtraction loop for the ordered pair
    [(s1, s2)], and the conditions under which the loop considers it. *)
Definition subtract (s1 s2 : sentence) : sentence :=
  Sentence_init (cells s1 ∖ cells s2) (count s1 - count s2).

Definition eligible (s1 s2 : sentence) : Prop :=
  s1 ≠ s2 ∧ cells s2 ⊆ cells s1 ∧ cells s2 ≠ ∅ ∧ 0 ≤ count s1 - count s2.

Definition derived_from (k : list sentence) (s : sentence) : Prop :=
  ∃ s1 s2, s1 ∈ k ∧ s2 ∈ k ∧ eligible s1 s2 ∧ s = subtract s1 s2.

(** [ij] is one of the cells around [c] on a board of size [h] by [w]. *)
Definition borders (h w : Z) (c ij : cell) : Prop :=
  ij ≠ c ∧ (0 ≤ ij.1 < h) ∧ (0 ≤ ij.2 < w).

Global Instance borders_dec h w c ij : Decision (borders h w c ij).
Proof. unfold borders. apply _. Defined.

(** The player and the board have the same size, and the player's
    knowledge agrees with the board's mines. *)
Definition agrees (g : Minesweeper.game) (st : AI) : Prop :=
  height st = Minesweeper.height g ∧ width st = Minesweeper.width g ∧
  consistent (Minesweeper.mines g) st.

(** The state after the two marking loops of a pass, with the value of
    [changed] at that point. *)
Definition marked (st : AI) : AI * bool :=
  foldl MinesweeperAI.mark_safe_step
    (foldl MinesweeperAI.mark_mine_step (st, false)
       (elements (MinesweeperAI.extract (knowledge st)).1))
    (elements (MinesweeperAI.extract (knowledge st)).2).

(** Appending the sentences found by the subtraction loop. *)
Definition extend (st : AI) : AI :=
  AI_init (height st) (width st) (moves_made st) (mines st) (safes st)
          (knowledge st ++ MinesweeperAI.combine (knowledge st)).

(** All subsets of the cells listed in [l]. *)
Fixpoint subsets (l : list cell) : list (gset cell) :=
  match l with
  | [] => [∅]
  | x :: l => subsets l ++ ((λ X, {[x]} ∪ X) <$> subsets l)
  end.

Definition powerset (U : gset cell) : gset (gset cell) :=
  list_to_set (subsets (elements U)).

(** The distinct non-empty cell sets of the sentences in the list. *)
Definition shapes (st : AI) : gset (gset cell) :=
  list_to_set (cells <$> filter (λ s, cells s ≠ ∅) (knowledge st)).

(** Every sentence speaks about cells of [U] only. *)
Definition bounded (U : gset cell) (st : AI) : Prop :=
  ∀ s, s ∈ knowledge st → cells s ⊆ U.

(** The quantity that every changing pass decreases: first the cells of
    [U] not yet proven, then the subsets of [U] that are not yet the
    cell set of a sentence. *)
Definition measure (U : gset cell) (st : AI) : nat :=
  ((size (U ∖ mines st) + size (U ∖ safes st)) * S (2 ^ size U)
   + size (powerset U ∖ shapes st))%nat.

(** [c] was revealed: it is a proven safe and no sentence mentions it. *)
Definition settled (c : cell) (st : AI) : Prop :=
  c ∈ safes st ∧ ∀ s, s ∈ knowledge st → c ∉ cells s.

(** The unknown neighbours of [c], if any, are the cells of a sentence. *)
Definition tracked (c : cell) (st : AI) : Prop :=
  (MinesweeperAI.scan st c).1 = ∅ ∨
  ∃ s, s ∈ knowledge st ∧ cells s = (MinesweeperAI.scan st c).1.

(** The sentence a clue [(c, n)] would produce now, unless no cell around
    [c] is unknown any more, is in the knowledge list. *)
Definition clue_sentence (c : cell) (n : Z) (st : AI) : Prop :=
  (MinesweeperAI.scan st c).1 = ∅ ∨
  Sentence_init (MinesweeperAI.scan st c).1 (n - (MinesweeperAI.scan st c).2)
  ∈ knowledge st.

(** No sentence mentions a cell that is already proven. *)
Definition clean (st : AI) : Prop :=
  ∀ s, s ∈ knowledge st → cells s ## mines st ∧ cells s ## safes st.

(** Everything the player knows is about cells of the board. *)
Definition within (U : gset cell) (st : AI) : Prop :=
  moves_made st ⊆ U ∧ mines st ⊆ U ∧ safes st ⊆ U ∧ bounded U st.

Definition on_board (st : AI) : Prop := within (MinesweeperAI.all_cells st) st.

(** The cells around [c] on the board of [g]. *)
Definition neighbours (g : Minesweeper.game) (c : cell) : gset cell :=
  list_to_set
    (filter (borders (Minesweeper.height g) (Minesweeper.width g) c)
            (block c)).

(** The cells around [c] on the player's board. *)
Definition around (st : AI) (c : cell) : gset cell :=
  list_to_set (filter (borders (height st) (width st) c) (block c)).

(** ** Concrete boards and states used as examples *)

(** A 2 by 2 board with one mine in the corner. *)
Definition corner_game : Minesweeper.game := Minesweeper.Game 2 2 {[ (0, 0) ]}.

(** The player after revealing [(1, 1)] (clue 1) on [corner_game]. *)
Definition corner_once : AI :=
  AI_init 2 2 {[ (1, 1) ]} ∅ {[ (1, 1) ]}
          [Sentence_init {[ (0, 0); (0, 1); (1, 0) ]} 1].

(** The same clue fed a second time. *)
Definition corner_twice : AI :=
  AI_init 2 2 {[ (1, 1) ]} ∅ {[ (1, 1) ]}
          [Sentence_init {[ (0, 0); (0, 1); (1, 0) ]} 1;
           Sentence_init {[ (0, 0); (0, 1); (1, 0) ]} 1].

(** The player after revealing [(1, 1)] and then [(0, 1)] (both clue 1). *)
Definition corner_two_moves : AI :=
  AI_init 2 2 {[ (1, 1); (0, 1) ]} ∅ {[ (1, 1); (0, 1) ]}
          [Sentence_init {[ (0, 0); (1, 0) ]} 1;
           Sentence_init {[ (0, 0); (1, 0) ]} 1].

(** Two sentences over the same three cells with different counts, as left
    by the clues [((1, 1), 2)] and [((1, 1), 1)]. *)
Definition clash_state : AI :=
  AI_init 2 2 {[ (1, 1) ]} ∅ {[ (1, 1) ]}
          [Sentence_init {[ (0, 0); (0, 1); (1, 0) ]} 2;
           Sentence_init {[ (0, 0); (0, 1); (1, 0) ]} 1].

Definition clash_state' : AI :=
  AI_init 2 2 {[ (1, 1) ]} ∅ {[ (1, 1) ]}
          [Sentence_init {[ (0, 0); (0, 1); (1, 0) ]} 2;
           Sentence_init {[ (0, 0); (0, 1); (1, 0) ]} 1;
           Sentence_init ∅ 1].

(** A board of one row and three columns with a mine at the left end, and
    the player after revealing the right end (clue 0). *)
Definition line_game : Minesweeper.game := Minesweeper.Game 1 3 {[ (0, 0) ]}.

Definition line_once : AI :=
  AI_init 1 3 {[ (0, 2) ]} ∅ {[ (0, 2); (0, 1) ]} [].

(** A board of one row and two columns with a mine on the left, and the
    player after revealing the right cell (clue 1). *)
Definition pair_game : Minesweeper.game := Minesweeper.Game 1 2 {[ (0, 0) ]}.

Definition pair_once : AI :=
  AI_init 1 2 {[ (0, 1) ]} {[ (0, 0) ]} {[ (0, 1) ]} [].

(** Two sentences without mines, one inside the other. *)
Definition nested_state : AI :=
  AI_init 2 2 ∅ ∅ ∅
          [Sentence_init {[ (0, 0); (0, 1) ]} 0;
           Sentence_init {[ (0, 0); (0, 1); (1, 1) ]} 0].

(** * Properties *)

(** ** Basic facts about the embedding *)

Global Instance sentence_eq_dec : EqDecision sentence.
Proof. solve_decision. Defined.

Global Instance AI_eq_dec : EqDecision AI.
Proof. solve_decision. Defined.

Lemma sentence_ext (s t : sentence) :
  cells s = cells t → count s = count t → s = t.
Proof. destruct s, t; simpl; congruence. Qed.

(** [__eq__] decides equality of the records. *)
Lemma Sentence_eq_true (s t : sentence) : Sentence.eq s t = true ↔ s = t.
Proof.
  unfold Sentence.eq. rewrite andb_true_iff, !bool_decide_eq_true.
  split; [intros [??]; by apply sentence_ext | by intros ->].
Qed.

Lemma Sentence_eq_false (s t : sentence) : Sentence.eq s t = false ↔ s ≠ t.
Proof.
  rewrite <- Sentence_eq_true. destruct (Sentence.eq s t); split; congruence.
Qed.

Lemma sentence_in_true (s : sentence) (l : list sentence) :
  sentence_in s l = true ↔ s ∈ l.
Proof.
  unfold sentence_in. rewrite existsb_exists. split.
  - intros (t & Hin & Heq). apply Sentence_eq_true in Heq as ->.
    by apply list_elem_of_In.
  - intros Hin. exists s. split; [by apply list_elem_of_In|].
    by apply Sentence_eq_true.
Qed.

Lemma sentence_in_false (s : sentence) (l : list sentence) :
  sentence_in s l = false ↔ s ∉ l.
Proof.
  rewrite <- sentence_in_true. destruct (sentence_in s l); split; congruence.
Qed.

Lemma elem_of_range (a b x : Z) : x ∈ range a b ↔ a ≤ x < b.
Proof.
  unfold range. rewrite list_elem_of_fmap. split.
  - intros (k & -> & Hk). apply elem_of_seq in Hk. lia.
  - intros Hx. exists (Z.to_nat (x - a)). split; [lia|].
    apply elem_of_seq. lia.
Qed.

Lemma elem_of_all_cells (st : AI) (c : cell) :
  c ∈ MinesweeperAI.all_cells st ↔
  0 ≤ c.1 < height st ∧ 0 ≤ c.2 < width st.
Proof.
  unfold MinesweeperAI.all_cells. rewrite elem_of_list_to_set.
  rewrite list_elem_of_bind. split.
  - intros (i & Hj & Hi). apply list_elem_of_bind in Hj as (j & Hc & Hj).
    apply list_elem_of_singleton in Hc as ->. simpl.
    apply elem_of_range in Hi, Hj. lia.
  - intros [Hi Hj]. exists c.1. split; [|apply elem_of_range; lia].
    apply list_elem_of_bind. exists c.2. split; [|apply elem_of_range; lia].
    destruct c. simpl. by apply list_elem_of_singleton.
Qed.

(** ** Loops as folds *)

Lemma foldl_invariant {A B : Type} (P : A → Prop) (f : A → B → A)
    (l : list B) (a0 : A) :
  P a0 → (∀ a x, x ∈ l → P a → P (f a x)) → P (foldl f a0 l).
Proof.
  revert a0. induction l as [|x l IH]; intros a0 H0 Hstep; simpl; [done|].
  apply IH.
  - apply Hstep; [left | done].
  - intros a' y Hy. apply Hstep. by right.
Qed.

Lemma range_block (x : Z) : range (x - 1) (x + 2) = [x - 1; x; x + 1].
Proof.
  unfold range. replace (x + 2 - (x - 1)) with 3 by lia.
  change (Z.to_nat 3) with 3%nat. cbn.
  f_equal; [lia|]. f_equal; [lia|]. f_equal. lia.
Qed.

Lemma block_eq (c : cell) :
  block c = [(c.1 - 1, c.2 - 1); (c.1 - 1, c.2); (c.1 - 1, c.2 + 1);
             (c.1, c.2 - 1); (c.1, c.2); (c.1, c.2 + 1);
             (c.1 + 1, c.2 - 1); (c.1 + 1, c.2); (c.1 + 1, c.2 + 1)].
Proof. unfold block. rewrite !range_block. reflexivity. Qed.

Lemma NoDup_block (c : cell) : NoDup (block c).
Proof.
  rewrite block_eq.
  repeat (apply NoDup_cons_2;
          [rewrite ?elem_of_cons, elem_of_nil;
           intros Hx; repeat destruct Hx as [Hx|Hx]; try done;
           inversion Hx; lia |]).
  apply NoDup_nil_2.
Qed.

(** ** Sentences and a mine placement *)

Section placement.
Context (M : gset cell).

Lemma sentence_ok_bounds (s : sentence) :
  sentence_ok M s → 0 ≤ count s ≤ Z.of_nat (size (cells s)).
Proof.
  unfold sentence_ok. intros ->. split; [lia|].
  apply inj_le, subseteq_size. set_solver.
Qed.

Lemma known_mines_sound (s : sentence) :
  sentence_ok M s → Sentence.known_mines s ⊆ M.
Proof.
  unfold sentence_ok, Sentence.known_mines. intros Hs.
  case_bool_decide as Hc; [|set_solver].
  assert (cells s ∩ M = cells s) as Heq; [|set_solver].
  apply set_subseteq_size_eq; [set_solver | lia].
Qed.

Lemma known_safes_sound (s : sentence) :
  sentence_ok M s → Sentence.known_safes s ## M.
Proof.
  unfold sentence_ok, Sentence.known_safes. intros Hs.
  case_bool_decide as Hc; [|set_solver].
  assert (size (cells s ∩ M) = 0%nat) as Hz%size_empty_inv by lia.
  set_solver.
Qed.

Lemma Sentence_mark_mine_ok (c : cell) (s : sentence) :
  c ∈ M → sentence_ok M s → sentence_ok M (Sentence.mark_mine c s).
Proof.
  unfold sentence_ok, Sentence.mark_mine. intros Hc Hs.
  case_bool_decide as Hin; [simpl|done].
  replace ((cells s ∖ {[c]}) ∩ M) with ((cells s ∩ M) ∖ {[c]}) by set_solver.
  rewrite size_difference by set_solver. rewrite size_singleton.
  assert (size (cells s ∩ M) ≠ 0%nat); [|lia].
  intros Hz%size_empty_inv. set_solver.
Qed.

Lemma Sentence_mark_safe_ok (c : cell) (s : sentence) :
  c ∉ M → sentence_ok M s → sentence_ok M (Sentence.mark_safe c s).
Proof.
  unfold sentence_ok, Sentence.mark_safe. intros Hc Hs.
  case_bool_decide as Hin; [simpl|done].
  replace ((cells s ∖ {[c]}) ∩ M) with (cells s ∩ M) by set_solver. done.
Qed.

Lemma subtract_ok (s1 s2 : sentence) :
  sentence_ok M s1 → sentence_ok M s2 → cells s2 ⊆ cells s1 →
  sentence_ok M (Sentence_init (cells s1 ∖ cells s2) (count s1 - count s2)).
Proof.
  unfold sentence_ok. simpl. intros -> -> Hsub.
  replace ((cells s1 ∖ cells s2) ∩ M)
    with ((cells s1 ∩ M) ∖ (cells s2 ∩ M)) by set_solver.
  rewrite (size_difference (cells s1 ∩ M) (cells s2 ∩ M)) by set_solver.
  assert (size (cells s2 ∩ M) ≤ size (cells s1 ∩ M))%nat; [|lia].
  apply subseteq_size. set_solver.
Qed.

(** Two sentences over the same cells that both agree with [M] are the
    same sentence. *)
Lemma sentence_ok_inj (s t : sentence) :
  sentence_ok M s → sentence_ok M t → cells s = cells t → s = t.
Proof.
  unfold sentence_ok. intros Hs Ht Heq. apply sentence_ext; [done|].
  rewrite Hs, Ht, Heq. done.
Qed.

End placement.

(** ** The extraction loop *)

Lemma extract_snoc (k : list sentence) (s : sentence) :
  MinesweeperAI.extract (k ++ [s]) =
  MinesweeperAI.extract_step (MinesweeperAI.extract k) s.
Proof. unfold MinesweeperAI.extract. apply foldl_snoc. Qed.

Lemma elem_of_extract_mines (k : list sentence) (c : cell) :
  c ∈ (MinesweeperAI.extract k).1 ↔ ∃ s, s ∈ k ∧ c ∈ Sentence.known_mines s.
Proof.
  induction k as [|s k IH] using rev_ind.
  - cbn. split; [set_solver|]. intros (s & Hs & _). by apply elem_of_nil in Hs.
  - rewrite extract_snoc. unfold MinesweeperAI.extract_step. cbn.
    setoid_rewrite elem_of_app. setoid_rewrite list_elem_of_singleton.
    case_bool_decide as Hm.
    + rewrite elem_of_union, IH. naive_solver.
    + rewrite IH. split; [naive_solver|].
      intros (t & [Ht| ->] & Hc); [eauto|]. rewrite Hm in Hc. set_solver.
Qed.

Lemma elem_of_extract_safes (k : list sentence) (c : cell) :
  c ∈ (MinesweeperAI.extract k).2 ↔ ∃ s, s ∈ k ∧ c ∈ Sentence.known_safes s.
Proof.
  induction k as [|s k IH] using rev_ind.
  - cbn. split; [set_solver|]. intros (s & Hs & _). by apply elem_of_nil in Hs.
  - rewrite extract_snoc. unfold MinesweeperAI.extract_step. cbn.
    setoid_rewrite elem_of_app. setoid_rewrite list_elem_of_singleton.
    case_bool_decide as Hm.
    + rewrite elem_of_union, IH. naive_solver.
    + rewrite IH. split; [naive_solver|].
      intros (t & [Ht| ->] & Hc); [eauto|]. rewrite Hm in Hc. set_solver.
Qed.

(** ** The subtraction loop *)

Lemma combine_step_cases (k : list sentence) (s1 : sentence)
    (new : list sentence) (s2 : sentence) :
  (MinesweeperAI.combine_step k s1 new s2 = new ++ [subtract s1 s2] ∧
   eligible s1 s2 ∧ subtract s1 s2 ∉ k ∧ subtract s1 s2 ∉ new) ∨
  (MinesweeperAI.combine_step k s1 new s2 = new ∧
   ¬ (eligible s1 s2 ∧ subtract s1 s2 ∉ k ∧ subtract s1 s2 ∉ new)).
Proof.
  unfold MinesweeperAI.combine_step, eligible. fold (subtract s1 s2).
  destruct (Sentence.eq s1 s2) eqn:He; simpl.
  { apply Sentence_eq_true in He. right. naive_solver. }
  apply Sentence_eq_false in He.
  case_bool_decide as Hsub; simpl; [|right; naive_solver].
  case_bool_decide as Hne; simpl; [|right; naive_solver].
  case_bool_decide as Hcnt; simpl; [|right; naive_solver].
  destruct (sentence_in (subtract s1 s2) k) eqn:Hk; simpl.
  { apply sentence_in_true in Hk. right. naive_solver. }
  apply sentence_in_false in Hk.
  destruct (sentence_in (subtract s1 s2) new) eqn:Hn; simpl.
  { apply sentence_in_true in Hn. right. naive_solver. }
  apply sentence_in_false in Hn. left. naive_solver.
Qed.

Lemma combine_inner_sound (k : list sentence) (s1 : sentence)
    (l new : list sentence) :
  s1 ∈ k → (∀ x, x ∈ l → x ∈ k) →
  (NoDup new ∧ ∀ s, s ∈ new → derived_from k s ∧ s ∉ k) →
  let r := foldl (MinesweeperAI.combine_step k s1) new l in
  NoDup r ∧ ∀ s, s ∈ r → derived_from k s ∧ s ∉ k.
Proof.
  intros Hs1 Hl Hnew r. subst r.
  apply (foldl_invariant
           (λ acc, NoDup acc ∧ ∀ s, s ∈ acc → derived_from k s ∧ s ∉ k));
    [done|].
  intros acc s2 Hs2 [Hnd Hacc].
  destruct (combine_step_cases k s1 acc s2) as [(-> & Hel & Hk & Hn)|[-> _]];
    [|done].
  split.
  - apply NoDup_app. split_and!; [done| |apply NoDup_singleton].
    intros x Hx ->%list_elem_of_singleton. done.
  - intros s [Hs| ->%list_elem_of_singleton]%elem_of_app; [by apply Hacc|].
    split; [|done]. exists s1, s2. split_and!; auto.
Qed.

Lemma combine_sound (k : list sentence) :
  NoDup (MinesweeperAI.combine k) ∧
  ∀ s, s ∈ MinesweeperAI.combine k → derived_from k s ∧ s ∉ k.
Proof.
  unfold MinesweeperAI.combine.
  apply (foldl_invariant
           (λ acc, NoDup acc ∧ ∀ s, s ∈ acc → derived_from k s ∧ s ∉ k)).
  - split; [apply NoDup_nil_2|]. intros s Hs. by apply elem_of_nil in Hs.
  - intros acc s1 Hs1 Hacc. by apply combine_inner_sound.
Qed.

Lemma combine_inner_mono (k : list sentence) (s1 : sentence)
    (l new : list sentence) (s : sentence) :
  s ∈ new → s ∈ foldl (MinesweeperAI.combine_step k s1) new l.
Proof.
  intros Hs. apply (foldl_invariant (λ acc, s ∈ acc)); [done|].
  intros acc s2 _ Hacc.
  destruct (combine_step_cases k s1 acc s2) as [(-> & _)|[-> _]]; [|done].
  apply elem_of_app. by left.
Qed.

Lemma combine_outer_mono (k l new : list sentence) (s : sentence) :
  s ∈ new →
  s ∈ foldl (λ new s1, foldl (MinesweeperAI.combine_step k s1) new k) new l.
Proof.
  intros Hs. apply (foldl_invariant (λ acc, s ∈ acc)); [done|].
  intros acc s1 _ Hacc. by apply combine_inner_mono.
Qed.

Lemma combine_inner_complete (k : list sentence) (s1 s2 : sentence)
    (l new : list sentence) :
  s2 ∈ l → eligible s1 s2 →
  subtract s1 s2 ∈ k ∨
  subtract s1 s2 ∈ foldl (MinesweeperAI.combine_step k s1) new l.
Proof.
  intros (l1 & l2 & ->)%list_elem_of_split Hel.
  rewrite foldl_app. simpl.
  set (acc := foldl (MinesweeperAI.combine_step k s1) new l1).
  destruct (combine_step_cases k s1 acc s2) as [(-> & _)|[-> Hno]].
  - right. apply combine_inner_mono, elem_of_app. right.
    by apply list_elem_of_singleton.
  - destruct (decide (subtract s1 s2 ∈ k)) as [|Hk]; [by left|].
    destruct (decide (subtract s1 s2 ∈ acc)) as [Hacc|Hacc].
    + right. by apply combine_inner_mono.
    + exfalso. apply Hno. done.
Qed.

Lemma combine_outer_complete (k l new : list sentence) (s1 s2 : sentence) :
  s1 ∈ l → s2 ∈ k → eligible s1 s2 →
  subtract s1 s2 ∈ k ∨
  subtract s1 s2 ∈
    foldl (λ new s1, foldl (MinesweeperAI.combine_step k s1) new k) new l.
Proof.
  intros (l1 & l2 & ->)%list_elem_of_split Hs2 Hel.
  rewrite foldl_app. simpl.
  set (acc := foldl _ new l1).
  destruct (combine_inner_complete k s1 s2 k acc Hs2 Hel) as [?|Hin];
    [by left|].
  right. by apply combine_outer_mono.
Qed.

Lemma combine_complete (k : list sentence) (s1 s2 : sentence) :
  s1 ∈ k → s2 ∈ k → eligible s1 s2 →
  subtract s1 s2 ∈ k ∨ subtract s1 s2 ∈ MinesweeperAI.combine k.
Proof. intros. by apply combine_outer_complete. Qed.

Lemma combine_nil (k : list sentence) :
  MinesweeperAI.combine k = [] ↔
  ∀ s1 s2, s1 ∈ k → s2 ∈ k → eligible s1 s2 → subtract s1 s2 ∈ k.
Proof.
  split.
  - intros Hnil s1 s2 Hs1 Hs2 Hel.
    destruct (combine_complete k s1 s2 Hs1 Hs2 Hel) as [?|Hin]; [done|].
    rewrite Hnil in Hin. by apply elem_of_nil in Hin.
  - intros Hall. unfold MinesweeperAI.combine.
    apply (foldl_invariant (λ acc, acc = [])); [done|].
    intros acc s1 Hs1 ->.
    apply (foldl_invariant (λ acc, acc = [])); [done|].
    intros acc s2 Hs2 ->.
    destruct (combine_step_cases k s1 [] s2) as [(_ & Hel & Hk & _)|[-> _]];
      [|done].
    exfalso. apply Hk. by apply Hall.
Qed.

(** ** The marking loops and the shape of a pass *)

Lemma cells_Sentence_mark_mine (c : cell) (s : sentence) :
  cells (Sentence.mark_mine c s) = cells s ∖ {[c]}.
Proof.
  unfold Sentence.mark_mine. case_bool_decide; simpl; set_solver.
Qed.

Lemma cells_Sentence_mark_safe (c : cell) (s : sentence) :
  cells (Sentence.mark_safe c s) = cells s ∖ {[c]}.
Proof.
  unfold Sentence.mark_safe. case_bool_decide; simpl; set_solver.
Qed.

Lemma pass_unfold (st : AI) :
  MinesweeperAI.pass st =
  (extend (MinesweeperAI.prune (marked st).1),
   (marked st).2
   || negb (bool_decide
        (MinesweeperAI.combine
           (knowledge (MinesweeperAI.prune (marked st).1)) = []))).
Proof.
  unfold MinesweeperAI.pass, marked, extend.
  destruct (MinesweeperAI.extract (knowledge st)) as [nm ns]. reflexivity.
Qed.

(** An invariant of the four phases is an invariant of the pass. *)
Lemma pass_invariant (P : AI → Prop) (st : AI) :
  P st →
  (∀ c st', c ∈ (MinesweeperAI.extract (knowledge st)).1 →
            P st' → P (MinesweeperAI.mark_mine c st')) →
  (∀ c st', c ∈ (MinesweeperAI.extract (knowledge st)).2 →
            P st' → P (MinesweeperAI.mark_safe c st')) →
  (∀ st', P st' → P (MinesweeperAI.prune st')) →
  (∀ st', P st' → P (extend st')) →
  P (MinesweeperAI.pass st).1.
Proof.
  intros H0 Hmine Hsafe Hprune Hext. rewrite pass_unfold. simpl.
  apply Hext, Hprune. unfold marked.
  apply (foldl_invariant (λ acc : AI * bool, P acc.1)).
  - apply (foldl_invariant (λ acc : AI * bool, P acc.1)); [done|].
    intros [a b] c Hc%elem_of_elements Ha.
    unfold MinesweeperAI.mark_mine_step. simpl in *.
    case_bool_decide; simpl; auto.
  - intros [a b] c Hc%elem_of_elements Ha.
    unfold MinesweeperAI.mark_safe_step. simpl in *.
    case_bool_decide; simpl; auto.
Qed.

(** ** Agreement with the mine placement is preserved *)

Section preservation.
Context (M : gset cell).

Lemma mark_mine_knowledge_ok (c : cell) (st : AI) :
  c ∈ M → knowledge_ok M st → knowledge_ok M (MinesweeperAI.mark_mine c st).
Proof.
  intros Hc Hk. apply Forall_fmap. eapply Forall_impl; [done|].
  intros s Hsok. by apply Sentence_mark_mine_ok.
Qed.

Lemma mark_safe_knowledge_ok (c : cell) (st : AI) :
  c ∉ M → knowledge_ok M st → knowledge_ok M (MinesweeperAI.mark_safe c st).
Proof.
  intros Hc Hk. apply Forall_fmap. eapply Forall_impl; [done|].
  intros s Hsok. by apply Sentence_mark_safe_ok.
Qed.

Lemma prune_knowledge_ok (st : AI) :
  knowledge_ok M st → knowledge_ok M (MinesweeperAI.prune st).
Proof.
  unfold knowledge_ok. rewrite !Forall_forall. simpl.
  intros Hk s [_ Hin]%list_elem_of_filter. auto.
Qed.

Lemma derived_ok (k : list sentence) (s : sentence) :
  Forall (sentence_ok M) k → derived_from k s → sentence_ok M s.
Proof.
  rewrite Forall_forall.
  intros Hk (s1 & s2 & Hs1 & Hs2 & (_ & Hsub & _) & ->).
  apply subtract_ok; auto.
Qed.

Lemma extend_knowledge_ok (st : AI) :
  knowledge_ok M st → knowledge_ok M (extend st).
Proof.
  intros Hk. apply Forall_app. split; [done|].
  apply Forall_forall. intros s Hin.
  eapply derived_ok; [done|]. by apply combine_sound.
Qed.

Lemma extract_mines_sound (st : AI) (c : cell) :
  knowledge_ok M st → c ∈ (MinesweeperAI.extract (knowledge st)).1 → c ∈ M.
Proof.
  unfold knowledge_ok. rewrite Forall_forall.
  intros Hk (s & Hs & Hc)%elem_of_extract_mines.
  by apply (known_mines_sound M s); auto.
Qed.

Lemma extract_safes_sound (st : AI) (c : cell) :
  knowledge_ok M st → c ∈ (MinesweeperAI.extract (knowledge st)).2 → c ∉ M.
Proof.
  unfold knowledge_ok. rewrite Forall_forall.
  intros Hk (s & Hs & Hc)%elem_of_extract_safes.
  pose proof (known_safes_sound M s (Hk s Hs)). set_solver.
Qed.

Lemma pass_knowledge_ok (st : AI) :
  knowledge_ok M st → knowledge_ok M (MinesweeperAI.pass st).1.
Proof.
  intros Hst. apply pass_invariant; [done|..].
  - intros c st' Hc. apply mark_mine_knowledge_ok.
    by apply (extract_mines_sound st).
  - intros c st' Hc. apply mark_safe_knowledge_ok.
    by apply (extract_safes_sound st).
  - apply prune_knowledge_ok.
  - apply extend_knowledge_ok.
Qed.

Lemma mark_safe_consistent (c : cell) (st : AI) :
  c ∉ M → consistent M st → consistent M (MinesweeperAI.mark_safe c st).
Proof.
  intros Hc (Hm & Hs & Hk). split_and!; simpl; [done|set_solver|].
  by apply mark_safe_knowledge_ok.
Qed.

Lemma pass_consistent (st : AI) :
  consistent M st → consistent M (MinesweeperAI.pass st).1.
Proof.
  intros Hst. pose proof Hst as (_ & _ & Hk).
  apply pass_invariant; [done|..].
  - intros c st' Hc (Hm' & Hs' & Hk').
    pose proof (extract_mines_sound st c Hk Hc).
    split_and!; simpl; [set_solver|done|].
    by apply mark_mine_knowledge_ok.
  - intros c st' Hc. apply mark_safe_consistent.
    by apply (extract_safes_sound st).
  - intros st' (Hm' & Hs' & Hk').
    split_and!; [done|done|by apply prune_knowledge_ok].
  - intros st' (Hm' & Hs' & Hk').
    split_and!; [done|done|by apply extend_knowledge_ok].
Qed.

Lemma update_knowledge_consistent (fuel : nat) (st st' : AI) :
  consistent M st →
  MinesweeperAI.update_knowledge fuel st = Some st' →
  consistent M st'.
Proof.
  revert st. induction fuel as [|n IH]; intros st Hst; simpl; [done|].
  pose proof (pass_consistent st Hst) as Hp.
  destruct (MinesweeperAI.pass st) as [st1 [|]]; simpl in *.
  - by apply IH.
  - by intros [= <-].
Qed.

End preservation.

(** ** Scanning the neighbourhood *)

Lemma filter_snoc {A : Type} (P : A → Prop) `{!∀ x, Decision (P x)}
    (l : list A) (x : A) :
  filter P (l ++ [x]) = filter P l ++ (if decide (P x) then [x] else []).
Proof. rewrite filter_app, filter_cons, filter_nil. done. Qed.

Lemma scan_step_cases (st : AI) (c : cell) (acc : gset cell * Z) (x : cell) :
  MinesweeperAI.scan_step st c acc x =
  ((if decide (borders (height st) (width st) c x
               ∧ x ∉ mines st ∧ x ∉ safes st)
    then {[x]} ∪ acc.1 else acc.1),
   (if decide (borders (height st) (width st) c x ∧ x ∈ mines st)
    then acc.2 + 1 else acc.2)).
Proof.
  unfold MinesweeperAI.scan_step, MinesweeperAI.in_bounds, borders.
  destruct acc as [nb z]. simpl.
  destruct (decide (x = c)) as [Hc|Hc].
  { rewrite bool_decide_eq_true_2 by done. rewrite !decide_False by tauto.
    done. }
  rewrite bool_decide_eq_false_2 by done.
  destruct (decide (0 ≤ x.1 < height st)) as [H1|H1]; cycle 1.
  { rewrite (bool_decide_eq_false_2 _ H1). simpl.
    rewrite !decide_False by tauto. done. }
  rewrite (bool_decide_eq_true_2 _ H1). simpl.
  destruct (decide (0 ≤ x.2 < width st)) as [H2|H2]; cycle 1.
  { rewrite (bool_decide_eq_false_2 _ H2).
    rewrite !decide_False by tauto. done. }
  rewrite (bool_decide_eq_true_2 _ H2).
  destruct (decide (x ∈ mines st)) as [Hm|Hm].
  { rewrite (bool_decide_eq_true_2 _ Hm).
    rewrite decide_False by tauto. rewrite decide_True by tauto. done. }
  rewrite (bool_decide_eq_false_2 _ Hm).
  rewrite (decide_False (P := _ ∧ x ∈ mines st)) by tauto.
  destruct (decide (x ∈ safes st)) as [Hs|Hs].
  - rewrite bool_decide_eq_false_2 by tauto.
    rewrite decide_False by tauto. done.
  - rewrite (bool_decide_eq_true_2 _ Hs).
    rewrite decide_True by tauto. done.
Qed.

Lemma scan_fold (st : AI) (c : cell) (l : list cell) :
  foldl (MinesweeperAI.scan_step st c) (∅, 0) l =
  (list_to_set
     (filter (λ ij, borders (height st) (width st) c ij
                    ∧ ij ∉ mines st ∧ ij ∉ safes st) l),
   Z.of_nat (length
     (filter (λ ij, borders (height st) (width st) c ij ∧ ij ∈ mines st) l))).
Proof.
  induction l as [|x l IH] using rev_ind; [done|].
  rewrite foldl_snoc, IH, scan_step_cases, !filter_snoc, !length_app,
    list_to_set_app_L.
  simpl. f_equal.
  - destruct (decide _); simpl.
    + rewrite (right_id_L ∅ (∪)). apply (comm_L (∪)).
    + by rewrite (right_id_L ∅ (∪)).
  - destruct (decide _); simpl; lia.
Qed.

Lemma nearby_step_cases (g : Minesweeper.game) (c : cell) (z : Z) (x : cell) :
  Minesweeper.nearby_step g c z x =
  if decide (borders (Minesweeper.height g) (Minesweeper.width g) c x
             ∧ x ∈ Minesweeper.mines g)
  then z + 1 else z.
Proof.
  unfold Minesweeper.nearby_step, borders.
  destruct (decide (x = c)) as [Hc|Hc].
  { rewrite bool_decide_eq_true_2 by done. rewrite decide_False by tauto.
    done. }
  rewrite bool_decide_eq_false_2 by done.
  destruct (decide (0 ≤ x.1 < Minesweeper.height g)) as [H1|H1]; cycle 1.
  { rewrite (bool_decide_eq_false_2 _ H1). simpl.
    rewrite decide_False by tauto. done. }
  rewrite (bool_decide_eq_true_2 _ H1). simpl.
  destruct (decide (0 ≤ x.2 < Minesweeper.width g)) as [H2|H2]; cycle 1.
  { rewrite (bool_decide_eq_false_2 _ H2).
    rewrite decide_False by tauto. done. }
  rewrite (bool_decide_eq_true_2 _ H2).
  destruct (decide (x ∈ Minesweeper.mines g)) as [Hm|Hm].
  - rewrite (bool_decide_eq_true_2 _ Hm). rewrite decide_True by tauto. done.
  - rewrite (bool_decide_eq_false_2 _ Hm). rewrite decide_False by tauto. done.
Qed.

Lemma nearby_fold (g : Minesweeper.game) (c : cell) (l : list cell) :
  foldl (Minesweeper.nearby_step g c) 0 l =
  Z.of_nat (length
    (filter (λ ij, borders (Minesweeper.height g) (Minesweeper.width g) c ij
                   ∧ ij ∈ Minesweeper.mines g) l)).
Proof.
  induction l as [|x l IH] using rev_ind; [done|].
  rewrite foldl_snoc, IH, nearby_step_cases, filter_snoc, length_app.
  destruct (decide _); simpl; lia.
Qed.

(** Among the cells around [c], the mines are the ones already known
    plus the ones among the unknown neighbours. *)
Lemma count_split (M mi sa : gset cell) (P : cell → Prop)
    `{!∀ x, Decision (P x)} (l : list cell) :
  mi ⊆ M → sa ## M →
  length (filter (λ ij, P ij ∧ ij ∈ M) l) =
  (length (filter (λ ij, P ij ∧ ij ∈ mi) l) +
   length (filter (λ ij, (P ij ∧ ij ∉ mi ∧ ij ∉ sa) ∧ ij ∈ M) l))%nat.
Proof.
  intros Hmi Hsa. induction l as [|x l IH]; [done|].
  rewrite !filter_cons.
  repeat case_decide; simpl; try lia; exfalso; set_solver.
Qed.

Lemma size_filter_inter (M : gset cell) (Q : cell → Prop)
    `{!∀ x, Decision (Q x)} (l : list cell) :
  NoDup l →
  size ((list_to_set (filter Q l) : gset cell) ∩ M) =
  length (filter (λ ij, Q ij ∧ ij ∈ M) l).
Proof.
  intros Hnd.
  rewrite <- (size_list_to_set (C:=gset cell)) by by apply NoDup_filter.
  f_equal. apply set_eq. intros x.
  rewrite elem_of_intersection, !elem_of_list_to_set, !list_elem_of_filter.
  naive_solver.
Qed.

Lemma scan_sentence_ok (g : Minesweeper.game) (st : AI) (c : cell) :
  agrees g st →
  sentence_ok (Minesweeper.mines g)
    (Sentence_init (MinesweeperAI.scan st c).1
       (Minesweeper.nearby_mines g c - (MinesweeperAI.scan st c).2)).
Proof.
  intros (Hh & Hw & Hm & Hs & _).
  unfold sentence_ok, MinesweeperAI.scan, Minesweeper.nearby_mines. simpl.
  rewrite scan_fold, nearby_fold. simpl. rewrite Hh, Hw.
  rewrite size_filter_inter by apply NoDup_block.
  rewrite (count_split (Minesweeper.mines g) (mines st) (safes st)) by done.
  lia.
Qed.

Lemma record_clue_agrees (g : Minesweeper.game) (c : cell) (n : Z) (st : AI) :
  agrees g st → valid_clue g c n →
  agrees g (MinesweeperAI.record_clue c n st).
Proof.
  intros (Hh & Hw & Hst) (_ & _ & Hc & ->).
  unfold MinesweeperAI.record_clue.
  set (st0 := MinesweeperAI.mark_safe c _).
  assert (agrees g st0) as Hst0.
  { split_and!; [done|done|].
    apply mark_safe_consistent; [done|]. apply Hst. }
  pose proof (scan_sentence_ok g st0 c Hst0) as Hok.
  destruct (MinesweeperAI.scan st0 c) as [nb z]. simpl in Hok.
  case_bool_decide; [|done].
  destruct Hst0 as (? & ? & ? & ? & ?).
  split_and!; [done|done|]. split_and!; [done|done|].
  apply Forall_app. split; [done|]. by apply Forall_singleton.
Qed.

(** A pass touches neither the board size nor [moves_made]. *)
Lemma pass_frame (st : AI) :
  height (MinesweeperAI.pass st).1 = height st ∧
  width (MinesweeperAI.pass st).1 = width st ∧
  moves_made (MinesweeperAI.pass st).1 = moves_made st.
Proof.
  apply (pass_invariant
           (λ st', height st' = height st ∧ width st' = width st
                   ∧ moves_made st' = moves_made st)); done.
Qed.

Lemma update_knowledge_frame (fuel : nat) (st st' : AI) :
  MinesweeperAI.update_knowledge fuel st = Some st' →
  height st' = height st ∧ width st' = width st ∧
  moves_made st' = moves_made st.
Proof.
  revert st. induction fuel as [|k IH]; intros st; simpl; [done|].
  pose proof (pass_frame st) as (Hh & Hw & Hmv).
  destruct (MinesweeperAI.pass st) as [st1 [|]]; simpl in *.
  - intros (-> & -> & ->)%IH. done.
  - by intros [= <-].
Qed.

Lemma add_knowledge_agrees (g : Minesweeper.game) (fuel : nat) (c : cell)
    (n : Z) (st st' : AI) :
  agrees g st → valid_clue g c n →
  MinesweeperAI.add_knowledge fuel c n st = Some st' →
  agrees g st'.
Proof.
  intros Hst Hclue Hadd. unfold MinesweeperAI.add_knowledge in Hadd.
  pose proof (record_clue_agrees g c n st Hst Hclue) as (Hh & Hw & Hcons).
  destruct (update_knowledge_frame _ _ _ Hadd) as (Hh' & Hw' & _).
  split_and!; [congruence|congruence|].
  by eapply update_knowledge_consistent.
Qed.

Lemma reachable_agrees (g : Minesweeper.game) (st : AI) :
  reachable g st → agrees g st.
Proof.
  induction 1 as [|st st' c n fuel _ IH Hclue Hadd].
  - split_and!; simpl; try done.
    split_and!; simpl; [set_solver|set_solver|by apply Forall_nil].
  - by eapply add_knowledge_agrees.
Qed.

(** ** What the marking loops do *)

Lemma mine_loop_mines (st : AI) (b : bool) (l : list cell) :
  let r := foldl MinesweeperAI.mark_mine_step (st, b) l in
  mines r.1 = mines st ∪ list_to_set l ∧ safes r.1 = safes st.
Proof.
  induction l as [|x l IH] using rev_ind; simpl; [set_solver|].
  rewrite foldl_snoc, list_to_set_app_L. simpl in IH. destruct IH as [IHm IHs].
  unfold MinesweeperAI.mark_mine_step at 1 3.
  case_bool_decide as Hx; simpl; rewrite ?IHm, ?IHs; [set_solver|].
  rewrite IHm in Hx. set_solver.
Qed.

Lemma safe_loop_safes (st : AI) (b : bool) (l : list cell) :
  let r := foldl MinesweeperAI.mark_safe_step (st, b) l in
  safes r.1 = safes st ∪ list_to_set l ∧ mines r.1 = mines st.
Proof.
  induction l as [|x l IH] using rev_ind; simpl; [set_solver|].
  rewrite foldl_snoc, list_to_set_app_L. simpl in IH. destruct IH as [IHm IHs].
  unfold MinesweeperAI.mark_safe_step at 1 3.
  case_bool_decide as Hx; simpl; rewrite ?IHm, ?IHs; [set_solver|].
  rewrite IHm in Hx. set_solver.
Qed.

Lemma marked_mines (st : AI) :
  mines (marked st).1 = mines st ∪ (MinesweeperAI.extract (knowledge st)).1.
Proof.
  unfold marked.
  destruct (safe_loop_safes
              (foldl MinesweeperAI.mark_mine_step (st, false)
                 (elements (MinesweeperAI.extract (knowledge st)).1)).1
              (foldl MinesweeperAI.mark_mine_step (st, false)
                 (elements (MinesweeperAI.extract (knowledge st)).1)).2
              (elements (MinesweeperAI.extract (knowledge st)).2)) as [_ Hm].
  rewrite <- surjective_pairing in Hm. rewrite Hm.
  destruct (mine_loop_mines st false
              (elements (MinesweeperAI.extract (knowledge st)).1)) as [-> _].
  by rewrite list_to_set_elements_L.
Qed.

Lemma marked_safes (st : AI) :
  safes (marked st).1 = safes st ∪ (MinesweeperAI.extract (knowledge st)).2.
Proof.
  unfold marked.
  destruct (safe_loop_safes
              (foldl MinesweeperAI.mark_mine_step (st, false)
                 (elements (MinesweeperAI.extract (knowledge st)).1)).1
              (foldl MinesweeperAI.mark_mine_step (st, false)
                 (elements (MinesweeperAI.extract (knowledge st)).1)).2
              (elements (MinesweeperAI.extract (knowledge st)).2)) as [Hs _].
  rewrite <- surjective_pairing in Hs. rewrite Hs.
  destruct (mine_loop_mines st false
              (elements (MinesweeperAI.extract (knowledge st)).1)) as [_ ->].
  by rewrite list_to_set_elements_L.
Qed.

(** Once [changed] is set, the loops leave it set. *)
Lemma mine_loop_true (st : AI) (l : list cell) :
  (foldl MinesweeperAI.mark_mine_step (st, true) l).2 = true.
Proof.
  apply (foldl_invariant (λ acc : AI * bool, acc.2 = true)); [done|].
  intros [a b] x _ Hb. unfold MinesweeperAI.mark_mine_step.
  case_bool_decide; done.
Qed.

Lemma safe_loop_true (st : AI) (l : list cell) :
  (foldl MinesweeperAI.mark_safe_step (st, true) l).2 = true.
Proof.
  apply (foldl_invariant (λ acc : AI * bool, acc.2 = true)); [done|].
  intros [a b] x _ Hb. unfold MinesweeperAI.mark_safe_step.
  case_bool_decide; done.
Qed.

(** A loop over cells that are all marked already does nothing. *)
Lemma mine_loop_noop (st : AI) (b : bool) (l : list cell) :
  (∀ c, c ∈ l → c ∈ mines st) →
  foldl MinesweeperAI.mark_mine_step (st, b) l = (st, b).
Proof.
  induction l as [|x l IH]; intros Hl; simpl; [done|].
  unfold MinesweeperAI.mark_mine_step at 2. simpl.
  rewrite bool_decide_eq_false_2.
  - apply IH. intros c Hc. apply Hl. by right.
  - intros Hx. apply Hx, Hl. left.
Qed.

Lemma safe_loop_noop (st : AI) (b : bool) (l : list cell) :
  (∀ c, c ∈ l → c ∈ safes st) →
  foldl MinesweeperAI.mark_safe_step (st, b) l = (st, b).
Proof.
  induction l as [|x l IH]; intros Hl; simpl; [done|].
  unfold MinesweeperAI.mark_safe_step at 2. simpl.
  rewrite bool_decide_eq_false_2.
  - apply IH. intros c Hc. apply Hl. by right.
  - intros Hx. apply Hx, Hl. left.
Qed.

(** If [changed] is still unset after a loop, the loop marked nothing. *)
Lemma mine_loop_false (st : AI) (l : list cell) :
  (foldl MinesweeperAI.mark_mine_step (st, false) l).2 = false →
  ∀ c, c ∈ l → c ∈ mines st.
Proof.
  induction l as [|x l IH]; simpl; [by intros _ c ?%elem_of_nil|].
  unfold MinesweeperAI.mark_mine_step at 2. simpl.
  case_bool_decide as Hx.
  - rewrite mine_loop_true. done.
  - intros Hf c [->|Hc]%elem_of_cons; auto.
Qed.

Lemma safe_loop_false (st : AI) (l : list cell) :
  (foldl MinesweeperAI.mark_safe_step (st, false) l).2 = false →
  ∀ c, c ∈ l → c ∈ safes st.
Proof.
  induction l as [|x l IH]; simpl; [by intros _ c ?%elem_of_nil|].
  unfold MinesweeperAI.mark_safe_step at 2. simpl.
  case_bool_decide as Hx.
  - rewrite safe_loop_true. done.
  - intros Hf c [->|Hc]%elem_of_cons; auto.
Qed.

(** The marking phase leaves [changed] unset exactly when every obvious
    mine and safe was known before; the object is then untouched. *)
Lemma marked_false_iff (st : AI) :
  (marked st).2 = false ↔
  (MinesweeperAI.extract (knowledge st)).1 ⊆ mines st ∧
  (MinesweeperAI.extract (knowledge st)).2 ⊆ safes st.
Proof.
  unfold marked. split.
  - intros Hf.
    destruct (foldl MinesweeperAI.mark_mine_step (st, false) _)
      as [st1 [|]] eqn:H1.
    { by rewrite safe_loop_true in Hf. }
    assert (∀ c, c ∈ elements (MinesweeperAI.extract (knowledge st)).1 →
                 c ∈ mines st) as Hm.
    { apply mine_loop_false. by rewrite H1. }
    rewrite mine_loop_noop in H1 by done. injection H1 as <-.
    pose proof (safe_loop_false _ _ Hf) as Hs.
    split; intros c Hc%elem_of_elements; auto.
  - intros [Hm Hs].
    rewrite mine_loop_noop by (intros c Hc%elem_of_elements; auto).
    rewrite safe_loop_noop by (intros c Hc%elem_of_elements; auto). done.
Qed.

Lemma marked_false_eq (st : AI) :
  (marked st).2 = false → (marked st).1 = st.
Proof.
  intros [Hm Hs]%marked_false_iff. unfold marked.
  rewrite mine_loop_noop by (intros c Hc%elem_of_elements; auto).
  rewrite safe_loop_noop by (intros c Hc%elem_of_elements; auto). done.
Qed.

(** ** Subsets of a finite universe *)

Lemma length_subsets (l : list cell) :
  length (subsets l) = (2 ^ length l)%nat.
Proof.
  induction l as [|x l IH]; simpl; [done|].
  rewrite length_app, length_fmap, IH. lia.
Qed.

Lemma elem_of_subsets (l : list cell) (X : gset cell) :
  X ⊆ list_to_set l → X ∈ subsets l.
Proof.
  revert X. induction l as [|x l IH]; intros X HX; simpl in *.
  - apply list_elem_of_singleton. set_solver.
  - apply elem_of_app. destruct (decide (x ∈ X)) as [Hx|Hx].
    + right. apply list_elem_of_fmap. exists (X ∖ {[x]}). split.
      * apply set_eq. intros y. destruct (decide (y = x)); set_solver.
      * apply IH. set_solver.
    + left. apply IH. set_solver.
Qed.

Lemma size_list_to_set_le (l : list (gset cell)) :
  (size (list_to_set l : gset (gset cell)) ≤ length l)%nat.
Proof.
  induction l as [|x l IH].
  - change (list_to_set [] : gset (gset cell)) with (∅ : gset (gset cell)).
    rewrite size_empty. simpl. lia.
  - change (list_to_set (x :: l) : gset (gset cell))
      with ({[x]} ∪ list_to_set l : gset (gset cell)).
    rewrite size_union_alt, size_singleton. simpl.
    assert (size ((list_to_set l : gset (gset cell)) ∖ {[x]})
            ≤ size (list_to_set l : gset (gset cell)))%nat; [|lia].
    apply subseteq_size. set_solver.
Qed.

Lemma size_powerset (U : gset cell) : (size (powerset U) ≤ 2 ^ size U)%nat.
Proof.
  unfold powerset. etrans; [apply size_list_to_set_le|].
  by rewrite length_subsets.
Qed.

Lemma elem_of_powerset (U X : gset cell) : X ⊆ U → X ∈ powerset U.
Proof.
  intros HX. unfold powerset. apply elem_of_list_to_set, elem_of_subsets.
  by rewrite list_to_set_elements_L.
Qed.

Lemma elem_of_shapes (st : AI) (X : gset cell) :
  X ∈ shapes st ↔ ∃ s, s ∈ knowledge st ∧ cells s = X ∧ X ≠ ∅.
Proof.
  unfold shapes. rewrite elem_of_list_to_set, list_elem_of_fmap.
  setoid_rewrite list_elem_of_filter. naive_solver.
Qed.

(** ** The pass keeps the sentences inside the universe *)

Lemma pass_bounded (U : gset cell) (st : AI) :
  bounded U st → bounded U (MinesweeperAI.pass st).1.
Proof.
  intros Hst. apply pass_invariant; [done|..]; unfold bounded; simpl.
  - intros c st' _ Hb s (t & -> & Ht)%list_elem_of_fmap.
    rewrite cells_Sentence_mark_mine. specialize (Hb t Ht). set_solver.
  - intros c st' _ Hb s (t & -> & Ht)%list_elem_of_fmap.
    rewrite cells_Sentence_mark_safe. specialize (Hb t Ht). set_solver.
  - intros st' Hb s [_ Hs]%list_elem_of_filter. auto.
  - intros st' Hb s [Hs|Hs]%elem_of_app; [auto|].
    apply combine_sound in Hs as [(s1 & s2 & Hs1 & _ & _ & ->) _].
    simpl. specialize (Hb s1 Hs1). set_solver.
Qed.

Lemma extract_mines_bounded (U : gset cell) (st : AI) :
  bounded U st → (MinesweeperAI.extract (knowledge st)).1 ⊆ U.
Proof.
  intros Hb c (s & Hs & Hc)%elem_of_extract_mines.
  apply (Hb s Hs). unfold Sentence.known_mines in Hc.
  case_bool_decide; set_solver.
Qed.

Lemma extract_safes_bounded (U : gset cell) (st : AI) :
  bounded U st → (MinesweeperAI.extract (knowledge st)).2 ⊆ U.
Proof.
  intros Hb c (s & Hs & Hc)%elem_of_extract_safes.
  apply (Hb s Hs). unfold Sentence.known_safes in Hc.
  case_bool_decide; set_solver.
Qed.

(** ** Every changing pass decreases the measure *)

Lemma not_subseteq_witness (X Y : gset cell) :
  ¬ X ⊆ Y → ∃ c, c ∈ X ∧ c ∉ Y.
Proof.
  intros Hn. destruct (decide (X ∖ Y = ∅)) as [He|Hne].
  - exfalso. apply Hn. intros c Hc. destruct (decide (c ∈ Y)); [done|].
    set_solver.
  - apply set_choose_L in Hne as [c Hc]. exists c. set_solver.
Qed.

Lemma size_powerset_diff (U : gset cell) (D : gset (gset cell)) :
  (size (powerset U ∖ D) ≤ 2 ^ size U)%nat.
Proof.
  etrans; [|apply size_powerset]. apply subseteq_size. set_solver.
Qed.

Lemma measure_marked (U : gset cell) (st st' : AI) :
  mines st ⊆ mines st' → safes st ⊆ safes st' →
  (∃ c, c ∈ U ∧ ((c ∈ mines st' ∧ c ∉ mines st)
                 ∨ (c ∈ safes st' ∧ c ∉ safes st))) →
  (measure U st' < measure U st)%nat.
Proof.
  intros Hm Hs (c & HcU & Hc). unfold measure.
  pose proof (size_powerset_diff U (shapes st')) as Hb.
  assert (size (U ∖ mines st') ≤ size (U ∖ mines st))%nat as Hm'
    by (apply subseteq_size; set_solver).
  assert (size (U ∖ safes st') ≤ size (U ∖ safes st))%nat as Hs'
    by (apply subseteq_size; set_solver).
  assert (size (U ∖ mines st') + size (U ∖ safes st')
          < size (U ∖ mines st) + size (U ∖ safes st))%nat as Hlt.
  { destruct Hc as [[Hc1 Hc2]|[Hc1 Hc2]].
    - assert (size (U ∖ mines st') < size (U ∖ mines st))%nat; [|lia].
      apply subset_size. set_solver.
    - assert (size (U ∖ safes st') < size (U ∖ safes st))%nat; [|lia].
      apply subset_size. set_solver. }
  nia.
Qed.

Lemma pass_decreases (M U : gset cell) (st : AI) :
  knowledge_ok M st → bounded U st →
  (MinesweeperAI.pass st).2 = true →
  (measure U (MinesweeperAI.pass st).1 < measure U st)%nat.
Proof.
  intros Hok Hb. rewrite pass_unfold. simpl.
  destruct (marked st).2 eqn:Hf; simpl.
  - intros _. apply measure_marked; simpl.
    + rewrite marked_mines. set_solver.
    + rewrite marked_safes. set_solver.
    + pose proof (extract_mines_bounded U st Hb) as HU1.
      pose proof (extract_safes_bounded U st Hb) as HU2.
      rewrite marked_mines, marked_safes.
      destruct (decide ((MinesweeperAI.extract (knowledge st)).1 ⊆ mines st))
        as [H1|H1].
      * destruct (decide
          ((MinesweeperAI.extract (knowledge st)).2 ⊆ safes st)) as [H2|H2].
        { assert ((marked st).2 = false) by by apply marked_false_iff.
          congruence. }
        apply not_subseteq_witness in H2 as (c & Hc & Hn).
        exists c. set_solver.
      * apply not_subseteq_witness in H1 as (c & Hc & Hn).
        exists c. set_solver.
  - rewrite (marked_false_eq st Hf). intros Hnew%negb_true_iff.
    apply bool_decide_eq_false in Hnew.
    set (k := filter (λ s, cells s ≠ ∅) (knowledge st)) in *.
    destruct (MinesweeperAI.combine k) as [|s new] eqn:Hcomb; [done|].
    assert (s ∈ MinesweeperAI.combine k) as Hs by (rewrite Hcomb; left).
    apply combine_sound in Hs as [Hder Hnk].
    assert (Forall (sentence_ok M) k) as Hokk.
    { unfold knowledge_ok in Hok. rewrite Forall_forall in Hok.
      apply Forall_forall. intros t [_ Ht]%list_elem_of_filter. auto. }
    pose proof (derived_ok M k s Hokk Hder) as Hsok.
    rewrite Forall_forall in Hokk.
    destruct Hder as (s1 & s2 & Hs1 & Hs2 & (Hne & Hsub & Hne2 & Hcnt) & Hseq).
    assert (cells s ⊆ U) as HsU.
    { apply list_elem_of_filter in Hs1 as [_ Hs1]. specialize (Hb s1 Hs1).
      rewrite Hseq. simpl. set_solver. }
    assert (cells s ≠ ∅) as Hsne.
    { intros He. apply Hne. apply (sentence_ok_inj M); auto.
      rewrite Hseq in He. simpl in He.
      apply set_eq. intros x. split; [|by apply Hsub].
      intros Hx. destruct (decide (x ∈ cells s2)); [done|]. set_solver. }
    assert (cells s ∉ shapes st) as Hfresh.
    { intros (t & Ht & Hc & Htne)%elem_of_shapes. apply Hnk.
      assert (t ∈ k) as Htk.
      { apply list_elem_of_filter. split; [by rewrite Hc|done]. }
      rewrite (sentence_ok_inj M s t); auto. }
    unfold measure. simpl.
    assert (size (powerset U
                  ∖ shapes (extend (MinesweeperAI.prune st)))
            < size (powerset U ∖ shapes st))%nat; [|lia].
    apply subset_size. split.
    + intros X [HX Hn]%elem_of_difference. apply elem_of_difference.
      split; [done|]. intros (t & Ht & Hc & Htne)%elem_of_shapes. apply Hn.
      apply elem_of_shapes. exists t. split_and!; [|done|done].
      simpl. apply elem_of_app. left. apply list_elem_of_filter.
      split; [by rewrite Hc|done].
    + intros Hsubs. specialize (Hsubs (cells s)).
      assert (cells s ∈ powerset U ∖ shapes st) as Hin.
      { apply elem_of_difference. split; [by apply elem_of_powerset|done]. }
      apply Hsubs in Hin. apply elem_of_difference in Hin as [_ Hin].
      apply Hin. apply elem_of_shapes. exists s. split_and!; [|done|done].
      simpl. apply elem_of_app. right. fold k. rewrite Hcomb. left.
Qed.

(** ** Termination of the fixpoint loop *)

Lemma measure_bound (U : gset cell) (st : AI) :
  (measure U st < (2 * size U + 1) * (2 ^ size U + 1))%nat.
Proof.
  unfold measure.
  pose proof (size_powerset_diff U (shapes st)).
  assert (size (U ∖ mines st) ≤ size U)%nat
    by (apply subseteq_size; set_solver).
  assert (size (U ∖ safes st) ≤ size U)%nat
    by (apply subseteq_size; set_solver).
  nia.
Qed.

Lemma update_knowledge_measure (M U : gset cell) (n : nat) (st : AI) :
  knowledge_ok M st → bounded U st → (measure U st < n)%nat →
  ∃ st', MinesweeperAI.update_knowledge n st = Some st'.
Proof.
  revert st. induction n as [|n IH]; intros st Hok Hb Hlt; [lia|].
  simpl.
  pose proof (pass_decreases M U st Hok Hb) as Hdec.
  pose proof (pass_knowledge_ok M st Hok) as Hok'.
  pose proof (pass_bounded U st Hb) as Hb'.
  destruct (MinesweeperAI.pass st) as [st1 [|]]; simpl in *.
  - apply IH; [done|done|]. specialize (Hdec eq_refl). lia.
  - by exists st1.
Qed.

(** More fuel never changes an answer. *)
Lemma update_knowledge_fuel_mono (n n' : nat) (st st' : AI) :
  MinesweeperAI.update_knowledge n st = Some st' → (n ≤ n')%nat →
  MinesweeperAI.update_knowledge n' st = Some st'.
Proof.
  revert n' st. induction n as [|n IH]; intros n' st; simpl; [done|].
  intros Hrun Hle. destruct n' as [|n']; [lia|]. simpl.
  destruct (MinesweeperAI.pass st) as [st1 [|]]; [|done].
  apply IH; [done|lia].
Qed.

(** ** States on which a pass changes nothing *)

Lemma filter_all {A : Type} (P : A → Prop) `{!∀ x, Decision (P x)}
    (l : list A) :
  Forall P l → filter P l = l.
Proof.
  induction 1 as [|x l Hx _ IH]; [done|].
  rewrite filter_cons_True by done. by rewrite IH.
Qed.

Lemma Forall_filter_self {A : Type} (P : A → Prop) `{!∀ x, Decision (P x)}
    (l : list A) :
  Forall P (filter P l).
Proof. apply Forall_forall. by intros x [? _]%list_elem_of_filter. Qed.

Lemma pass_false (st : AI) :
  (MinesweeperAI.pass st).2 = false ↔
  (MinesweeperAI.extract (knowledge st)).1 ⊆ mines st ∧
  (MinesweeperAI.extract (knowledge st)).2 ⊆ safes st ∧
  MinesweeperAI.combine (filter (λ s, cells s ≠ ∅) (knowledge st)) = [].
Proof.
  rewrite pass_unfold. simpl. rewrite orb_false_iff, negb_false_iff. split.
  - intros [Hf Hc]. pose proof (marked_false_eq st Hf) as Heq.
    apply marked_false_iff in Hf as [Hm Hs].
    rewrite Heq in Hc. apply bool_decide_eq_true in Hc. done.
  - intros (Hm & Hs & Hc).
    assert ((marked st).2 = false) as Hf by by apply marked_false_iff.
    split; [done|]. rewrite (marked_false_eq st Hf).
    by apply bool_decide_eq_true.
Qed.

Lemma pass_false_result (st : AI) :
  (MinesweeperAI.pass st).2 = false →
  (MinesweeperAI.pass st).1 = MinesweeperAI.prune st.
Proof.
  intros Hf. pose proof Hf as (Hm & Hs & Hc)%pass_false.
  rewrite pass_unfold in *. simpl in *. apply orb_false_iff in Hf as [Hf _].
  rewrite (marked_false_eq st Hf). unfold extend. simpl. rewrite Hc.
  unfold MinesweeperAI.prune. by rewrite app_nil_r.
Qed.

(** The conditions under which a pass returns the very same object with
    [changed] unset. *)
Lemma pass_stable_iff (st : AI) :
  MinesweeperAI.pass st = (st, false) ↔
  (MinesweeperAI.extract (knowledge st)).1 ⊆ mines st ∧
  (MinesweeperAI.extract (knowledge st)).2 ⊆ safes st ∧
  Forall (λ s, cells s ≠ ∅) (knowledge st) ∧
  MinesweeperAI.combine (knowledge st) = [].
Proof.
  split.
  - intros Hp.
    assert ((MinesweeperAI.pass st).2 = false) as Hf by by rewrite Hp.
    pose proof (pass_false_result st Hf) as Hr. rewrite Hp in Hr. simpl in Hr.
    apply pass_false in Hf as (Hm & Hs & Hc).
    assert (filter (λ s, cells s ≠ ∅) (knowledge st) = knowledge st) as Hk.
    { rewrite Hr at 2. done. }
    rewrite Hk in Hc. split_and!; try done.
    rewrite <- Hk. apply Forall_filter_self.
  - intros (Hm & Hs & Hne & Hc).
    assert (filter (λ s, cells s ≠ ∅) (knowledge st) = knowledge st) as Hk
      by by apply filter_all.
    assert ((MinesweeperAI.pass st).2 = false) as Hf.
    { apply pass_false. by rewrite Hk. }
    pose proof (pass_false_result st Hf) as Hr.
    destruct (MinesweeperAI.pass st) as [st' b]. simpl in *. subst.
    f_equal. unfold MinesweeperAI.prune. rewrite Hk. by destruct st.
Qed.

Lemma pass_false_stable (st st' : AI) :
  MinesweeperAI.pass st = (st', false) →
  MinesweeperAI.pass st' = (st', false).
Proof.
  intros Hp.
  assert ((MinesweeperAI.pass st).2 = false) as Hf by by rewrite Hp.
  pose proof (pass_false_result st Hf) as Hr. rewrite Hp in Hr. simpl in Hr.
  apply pass_false in Hf as (Hm & Hs & Hc). subst st'.
  apply pass_stable_iff. simpl. split_and!.
  - intros c (s & [_ Hin]%list_elem_of_filter & Hc')%elem_of_extract_mines.
    apply Hm. apply elem_of_extract_mines. eauto.
  - intros c (s & [_ Hin]%list_elem_of_filter & Hc')%elem_of_extract_safes.
    apply Hs. apply elem_of_extract_safes. eauto.
  - apply Forall_filter_self.
  - done.
Qed.

Lemma update_knowledge_stable (fuel : nat) (st st' : AI) :
  MinesweeperAI.update_knowledge fuel st = Some st' →
  MinesweeperAI.pass st' = (st', false).
Proof.
  revert st. induction fuel as [|n IH]; intros st; simpl; [done|].
  destruct (MinesweeperAI.pass st) as [st1 [|]] eqn:Hp.
  - apply IH.
  - intros [= <-]. by apply (pass_false_stable st).
Qed.

(** Appending a second copy of a sentence to a stable object leaves it
    stable. *)
Lemma stable_duplicate (st : AI) (s : sentence) :
  MinesweeperAI.pass st = (st, false) → s ∈ knowledge st →
  let st' := AI_init (height st) (width st) (moves_made st) (mines st)
                     (safes st) (knowledge st ++ [s]) in
  MinesweeperAI.pass st' = (st', false).
Proof.
  intros (Hm & Hs & Hne & Hc)%pass_stable_iff Hin st'.
  assert (∀ t, t ∈ knowledge st' → t ∈ knowledge st) as Hsame.
  { simpl. intros t [Ht| ->%list_elem_of_singleton]%elem_of_app; done. }
  apply pass_stable_iff. split_and!.
  - intros c (t & Ht & Hc')%elem_of_extract_mines.
    apply Hm, elem_of_extract_mines. eauto.
  - intros c (t & Ht & Hc')%elem_of_extract_safes.
    apply Hs, elem_of_extract_safes. eauto.
  - apply Forall_forall. intros t Ht. rewrite Forall_forall in Hne. auto.
  - apply combine_nil. intros s1 s2 Hs1 Hs2 Hel.
    simpl. apply elem_of_app. left.
    rewrite combine_nil in Hc. apply Hc; auto.
Qed.

(** ** Feeding the same clue twice *)

Lemma fmap_id_on {A : Type} (f : A → A) (l : list A) :
  (∀ x, x ∈ l → f x = x) → f <$> l = l.
Proof.
  induction l as [|x l IH]; intros Hf; [done|]. cbn. f_equal.
  - apply Hf. left.
  - apply IH. intros y Hy. apply Hf. by right.
Qed.

Lemma elem_of_scan (st : AI) (c x : cell) :
  x ∈ (MinesweeperAI.scan st c).1 ↔
  x ∈ block c ∧ borders (height st) (width st) c x
  ∧ x ∉ mines st ∧ x ∉ safes st.
Proof.
  unfold MinesweeperAI.scan. rewrite scan_fold. simpl.
  rewrite elem_of_list_to_set, list_elem_of_filter. tauto.
Qed.

Lemma scan_mark_mine (st : AI) (c x : cell) :
  (MinesweeperAI.scan (MinesweeperAI.mark_mine x st) c).1 =
  (MinesweeperAI.scan st c).1 ∖ {[x]}.
Proof.
  apply set_eq. intros y.
  rewrite elem_of_difference, !elem_of_scan. simpl.
  rewrite elem_of_union, !elem_of_singleton. tauto.
Qed.

Lemma scan_mark_safe (st : AI) (c x : cell) :
  (MinesweeperAI.scan (MinesweeperAI.mark_safe x st) c).1 =
  (MinesweeperAI.scan st c).1 ∖ {[x]}.
Proof.
  apply set_eq. intros y.
  rewrite elem_of_difference, !elem_of_scan. simpl.
  rewrite elem_of_union, !elem_of_singleton. tauto.
Qed.

(** The scan reads the board size and the two proven sets only. *)
Lemma scan_ext (st st' : AI) (c : cell) :
  height st' = height st → width st' = width st →
  mines st' = mines st → safes st' = safes st →
  MinesweeperAI.scan st' c = MinesweeperAI.scan st c.
Proof.
  intros Hh Hw Hm Hs. unfold MinesweeperAI.scan.
  rewrite !scan_fold, Hh, Hw, Hm, Hs. done.
Qed.

Lemma pass_settled (c : cell) (st : AI) :
  settled c st → settled c (MinesweeperAI.pass st).1.
Proof.
  intros Hst. apply pass_invariant; [done|..]; unfold settled; simpl.
  - intros x st' _ [Hc Hk]. split; [done|].
    intros s (t & -> & Ht)%list_elem_of_fmap.
    rewrite cells_Sentence_mark_mine. specialize (Hk t Ht). set_solver.
  - intros x st' _ [Hc Hk]. split; [set_solver|].
    intros s (t & -> & Ht)%list_elem_of_fmap.
    rewrite cells_Sentence_mark_safe. specialize (Hk t Ht). set_solver.
  - intros st' [Hc Hk]. split; [done|].
    intros s [_ Hs]%list_elem_of_filter. auto.
  - intros st' [Hc Hk]. split; [done|].
    intros s [Hs|Hs]%elem_of_app; [auto|].
    apply combine_sound in Hs as [(s1 & s2 & Hs1 & _ & _ & ->) _].
    simpl. specialize (Hk s1 Hs1). set_solver.
Qed.

Lemma pass_tracked (c : cell) (st : AI) :
  tracked c st → tracked c (MinesweeperAI.pass st).1.
Proof.
  intros Hst. apply pass_invariant; [done|..]; unfold tracked.
  - intros x st' _ [He|(s & Hs & Hc)]; rewrite scan_mark_mine.
    + left. rewrite He. set_solver.
    + right. exists (Sentence.mark_mine x s). split.
      * simpl. apply list_elem_of_fmap. eauto.
      * by rewrite cells_Sentence_mark_mine, Hc.
  - intros x st' _ [He|(s & Hs & Hc)]; rewrite scan_mark_safe.
    + left. rewrite He. set_solver.
    + right. exists (Sentence.mark_safe x s). split.
      * simpl. apply list_elem_of_fmap. eauto.
      * by rewrite cells_Sentence_mark_safe, Hc.
  - intros st'. rewrite (scan_ext st' (MinesweeperAI.prune st')) by done.
    intros [He|(s & Hs & Hc)]; [by left|].
    destruct (decide ((MinesweeperAI.scan st' c).1 = ∅)) as [He|Hne];
      [by left|].
    right. exists s. split; [|done]. simpl.
    apply list_elem_of_filter. split; [by rewrite Hc|done].
  - intros st'. rewrite (scan_ext st' (extend st')) by done.
    intros [He|(s & Hs & Hc)]; [by left|].
    right. exists s. split; [|done]. simpl. apply elem_of_app. by left.
Qed.

Lemma update_knowledge_settled_tracked (c : cell) (fuel : nat) (st st' : AI) :
  settled c st → tracked c st →
  MinesweeperAI.update_knowledge fuel st = Some st' →
  settled c st' ∧ tracked c st'.
Proof.
  revert st. induction fuel as [|n IH]; intros st Hs Ht; simpl; [done|].
  pose proof (pass_settled c st Hs) as Hs'.
  pose proof (pass_tracked c st Ht) as Ht'.
  destruct (MinesweeperAI.pass st) as [st1 [|]]; simpl in *.
  - by apply IH.
  - by intros [= <-].
Qed.

Lemma record_clue_settled_tracked (c : cell) (n : Z) (st : AI) :
  settled c (MinesweeperAI.record_clue c n st) ∧
  tracked c (MinesweeperAI.record_clue c n st) ∧
  c ∈ moves_made (MinesweeperAI.record_clue c n st).
Proof.
  unfold MinesweeperAI.record_clue.
  set (st0 := MinesweeperAI.mark_safe c _).
  assert (settled c st0) as [Hc Hk].
  { split; simpl; [set_solver|].
    intros s (t & -> & Ht)%list_elem_of_fmap.
    rewrite cells_Sentence_mark_safe. set_solver. }
  assert (c ∈ moves_made st0) as Hmv by (simpl; set_solver).
  destruct (MinesweeperAI.scan st0 c) as [nb z] eqn:Hscan.
  case_bool_decide as Hnb.
  - split_and!; [split| |done]; simpl.
    + done.
    + intros s [Hs| ->%list_elem_of_singleton]%elem_of_app; [auto|].
      simpl. intros Hin.
      assert (c ∈ (MinesweeperAI.scan st0 c).1) as Hin'
        by by rewrite Hscan.
      apply elem_of_scan in Hin' as (_ & (Hne & _) & _). done.
    + right. exists (Sentence_init nb (n - z)). split.
      * simpl. apply elem_of_app. right. by apply list_elem_of_singleton.
      * rewrite (scan_ext st0) by done. by rewrite Hscan.
  - split_and!; [done| |done]. left. by rewrite Hscan.
Qed.

(** On a settled cell that was already played, everything before the
    loop only appends the sentence over the unknown neighbours. *)
Lemma record_clue_again (c : cell) (n : Z) (st : AI) :
  settled c st → c ∈ moves_made st →
  MinesweeperAI.record_clue c n st =
  if bool_decide ((MinesweeperAI.scan st c).1 ≠ ∅)
  then AI_init (height st) (width st) (moves_made st) (mines st) (safes st)
         (knowledge st ++
          [Sentence_init (MinesweeperAI.scan st c).1
                         (n - (MinesweeperAI.scan st c).2)])
  else st.
Proof.
  intros [Hc Hk] Hmv. unfold MinesweeperAI.record_clue.
  assert (MinesweeperAI.mark_safe c
            (AI_init (height st) (width st) ({[c]} ∪ moves_made st)
                     (mines st) (safes st) (knowledge st)) = st) as ->.
  { unfold MinesweeperAI.mark_safe. simpl. destruct st as [h w mv mi sa k].
    simpl in *. f_equal; [set_solver|set_solver|].
    apply fmap_id_on. intros s Hs. unfold Sentence.mark_safe.
    rewrite bool_decide_eq_false_2; [done|by apply Hk]. }
  destruct (MinesweeperAI.scan st c) as [nb z]. simpl. done.
Qed.

(** ** Proven cells leave the sentences *)

Lemma pass_clean (st : AI) : clean st → clean (MinesweeperAI.pass st).1.
Proof.
  intros Hst. apply pass_invariant; [done|..]; unfold clean; simpl.
  - intros c st' _ Hk s (t & -> & Ht)%list_elem_of_fmap.
    rewrite cells_Sentence_mark_mine. destruct (Hk t Ht). set_solver.
  - intros c st' _ Hk s (t & -> & Ht)%list_elem_of_fmap.
    rewrite cells_Sentence_mark_safe. destruct (Hk t Ht). set_solver.
  - intros st' Hk s [_ Hs]%list_elem_of_filter. auto.
  - intros st' Hk s [Hs|Hs]%elem_of_app; [auto|].
    apply combine_sound in Hs as [(s1 & s2 & Hs1 & _ & _ & ->) _].
    simpl. destruct (Hk s1 Hs1). set_solver.
Qed.

Lemma update_knowledge_clean (fuel : nat) (st st' : AI) :
  clean st → MinesweeperAI.update_knowledge fuel st = Some st' → clean st'.
Proof.
  revert st. induction fuel as [|k IH]; intros st Hst; simpl; [done|].
  pose proof (pass_clean st Hst) as Hp.
  destruct (MinesweeperAI.pass st) as [st1 [|]]; simpl in *.
  - by apply IH.
  - by intros [= <-].
Qed.

Lemma record_clue_clean (c : cell) (n : Z) (st : AI) :
  clean st → clean (MinesweeperAI.record_clue c n st).
Proof.
  intros Hk. unfold MinesweeperAI.record_clue.
  set (st0 := MinesweeperAI.mark_safe c _).
  assert (clean st0) as Hk0.
  { unfold clean. simpl. intros s (t & -> & Ht)%list_elem_of_fmap.
    rewrite cells_Sentence_mark_safe. destruct (Hk t Ht). set_solver. }
  destruct (MinesweeperAI.scan st0 c) as [nb z] eqn:Hscan.
  case_bool_decide; [|done].
  unfold clean. simpl.
  intros s [Hs| ->%list_elem_of_singleton]%elem_of_app; [by apply Hk0|].
  simpl.
  assert (∀ x, x ∈ nb → x ∉ mines st0 ∧ x ∉ safes st0) as Hnb.
  { intros x Hx.
    assert (x ∈ (MinesweeperAI.scan st0 c).1) as Hx' by by rewrite Hscan.
    apply elem_of_scan in Hx'. tauto. }
  split; intros x Hx Hx'; destruct (Hnb x Hx); done.
Qed.

(** Whatever the clue, [add_knowledge] keeps the object clean; a fresh
    player is clean. *)
Lemma add_knowledge_clean (fuel : nat) (c : cell) (n : Z) (st st' : AI) :
  clean st → MinesweeperAI.add_knowledge fuel c n st = Some st' → clean st'.
Proof.
  intros Hclean Hadd. eapply update_knowledge_clean; [|exact Hadd].
  by apply record_clue_clean.
Qed.

Lemma init_clean (h w : Z) : clean (MinesweeperAI.init h w).
Proof. by intros s ?%elem_of_nil. Qed.

Lemma reachable_clean (g : Minesweeper.game) (st : AI) :
  reachable g st → clean st.
Proof.
  induction 1 as [|st st' c n fuel Hr IH Hclue Hadd].
  - by intros s ?%elem_of_nil.
  - eapply update_knowledge_clean; [|exact Hadd]. by apply record_clue_clean.
Qed.

(** ** The sentence of a clue keeps its count up to date *)

(** Like [pass_invariant], with what the marking loops know when they mark:
    the cell is not yet in the set, and the loop over [new_mines] runs
    before [safes] changes. *)
Lemma pass_invariant_marking (P : AI → Prop) (st : AI) :
  P st →
  (∀ c st', c ∈ (MinesweeperAI.extract (knowledge st)).1 →
            c ∉ mines st' → safes st' = safes st →
            P st' → P (MinesweeperAI.mark_mine c st')) →
  (∀ c st', c ∈ (MinesweeperAI.extract (knowledge st)).2 →
            c ∉ safes st' →
            P st' → P (MinesweeperAI.mark_safe c st')) →
  (∀ st', P st' → P (MinesweeperAI.prune st')) →
  (∀ st', P st' → P (extend st')) →
  P (MinesweeperAI.pass st).1.
Proof.
  intros H0 Hmine Hsafe Hprune Hext. rewrite pass_unfold. simpl.
  apply Hext, Hprune. unfold marked.
  apply (foldl_invariant (λ acc : AI * bool, P acc.1)).
  - assert (P (foldl MinesweeperAI.mark_mine_step (st, false)
                 (elements (MinesweeperAI.extract (knowledge st)).1)).1
            ∧ safes (foldl MinesweeperAI.mark_mine_step (st, false)
                 (elements (MinesweeperAI.extract (knowledge st)).1)).1
              = safes st) as [HP _]; [|done].
    apply (foldl_invariant
             (λ acc : AI * bool, P acc.1 ∧ safes acc.1 = safes st)); [done|].
    intros [a b] c Hc%elem_of_elements [Ha Hs].
    unfold MinesweeperAI.mark_mine_step. simpl in *.
    case_bool_decide; simpl; [|done]. split; [|done]. by apply Hmine.
  - intros [a b] c Hc%elem_of_elements Ha.
    unfold MinesweeperAI.mark_safe_step. simpl in *.
    case_bool_decide; simpl; [|done]. by apply Hsafe.
Qed.

Lemma scan_closed (st : AI) (c : cell) :
  (MinesweeperAI.scan st c).1 = around st c ∖ mines st ∖ safes st ∧
  (MinesweeperAI.scan st c).2 = Z.of_nat (size (around st c ∩ mines st)).
Proof.
  split.
  - apply set_eq. intros x.
    rewrite elem_of_scan, !elem_of_difference. unfold around.
    rewrite elem_of_list_to_set, list_elem_of_filter. tauto.
  - unfold MinesweeperAI.scan, around. rewrite scan_fold. simpl.
    by rewrite size_filter_inter by apply NoDup_block.
Qed.

Lemma scan_count_mark_mine (st : AI) (c x : cell) :
  x ∉ mines st →
  (MinesweeperAI.scan (MinesweeperAI.mark_mine x st) c).2 =
  (MinesweeperAI.scan st c).2 + (if decide (x ∈ around st c) then 1 else 0).
Proof.
  intros Hx.
  destruct (scan_closed (MinesweeperAI.mark_mine x st) c) as [_ ->].
  destruct (scan_closed st c) as [_ ->].
  change (around (MinesweeperAI.mark_mine x st) c) with (around st c).
  simpl. destruct (decide (x ∈ around st c)) as [Hin|Hin].
  - replace (around st c ∩ ({[x]} ∪ mines st))
      with ({[x]} ∪ around st c ∩ mines st) by set_solver.
    rewrite size_union by set_solver. rewrite size_singleton. lia.
  - replace (around st c ∩ ({[x]} ∪ mines st))
      with (around st c ∩ mines st) by set_solver. lia.
Qed.

Lemma scan_count_mark_safe (st : AI) (c x : cell) :
  (MinesweeperAI.scan (MinesweeperAI.mark_safe x st) c).2 =
  (MinesweeperAI.scan st c).2.
Proof.
  destruct (scan_closed (MinesweeperAI.mark_safe x st) c) as [_ ->].
  by destruct (scan_closed st c) as [_ ->].
Qed.

Lemma extract_mines_cells (st : AI) (x : cell) :
  x ∈ (MinesweeperAI.extract (knowledge st)).1 →
  ∃ s, s ∈ knowledge st ∧ x ∈ cells s.
Proof.
  intros (s & Hs & Hx)%elem_of_extract_mines. exists s. split; [done|].
  unfold Sentence.known_mines in Hx. case_bool_decide; set_solver.
Qed.

Lemma pass_clue_sentence (c : cell) (n : Z) (st : AI) :
  clean st → clue_sentence c n st →
  clean (MinesweeperAI.pass st).1 ∧ clue_sentence c n (MinesweeperAI.pass st).1.
Proof.
  intros Hclean Htr.
  apply (pass_invariant_marking (λ st', clean st' ∧ clue_sentence c n st'));
    [done|..]; unfold clue_sentence.
  - intros x st' Hx Hxm Hsafes [Hcl Hcs].
    assert (x ∉ safes st') as Hxs.
    { rewrite Hsafes. apply extract_mines_cells in Hx as (t & Ht & Hxt).
      destruct (Hclean t Ht) as [_ Hd]. set_solver. }
    split.
    { intros s (t & -> & Ht)%list_elem_of_fmap.
      rewrite cells_Sentence_mark_mine. destruct (Hcl t Ht).
      simpl. set_solver. }
    rewrite scan_mark_mine, scan_count_mark_mine by done.
    destruct Hcs as [He|Hin]; [left; rewrite He; set_solver|].
    right. simpl. apply list_elem_of_fmap.
    eexists. split; [|exact Hin].
    unfold Sentence.mark_mine. simpl.
    destruct (decide (x ∈ around st' c)) as [Ha|Ha].
    + rewrite bool_decide_eq_true_2.
      * f_equal. lia.
      * destruct (scan_closed st' c) as [-> _]. set_solver.
    + rewrite bool_decide_eq_false_2.
      * f_equal; [|lia].
        destruct (scan_closed st' c) as [-> _]. set_solver.
      * destruct (scan_closed st' c) as [-> _]. set_solver.
  - intros x st' Hx Hxs [Hcl Hcs].
    split.
    { intros s (t & -> & Ht)%list_elem_of_fmap.
      rewrite cells_Sentence_mark_safe. destruct (Hcl t Ht).
      simpl. set_solver. }
    rewrite scan_mark_safe, scan_count_mark_safe.
    destruct Hcs as [He|Hin]; [left; rewrite He; set_solver|].
    right. simpl. apply list_elem_of_fmap.
    eexists. split; [|exact Hin].
    apply sentence_ext; [by rewrite cells_Sentence_mark_safe|].
    unfold Sentence.mark_safe. by case_bool_decide.
  - intros st' [Hcl Hcs]. split.
    { intros s [_ Hs]%list_elem_of_filter. by apply Hcl. }
    rewrite (scan_ext st' (MinesweeperAI.prune st')) by done.
    destruct Hcs as [He|Hin]; [by left|].
    destruct (decide ((MinesweeperAI.scan st' c).1 = ∅)) as [He|Hne];
      [by left|].
    right. simpl. apply list_elem_of_filter. split; [done|done].
  - intros st' [Hcl Hcs]. split.
    { intros s [Hs|Hs]%elem_of_app; [by apply Hcl|].
      apply combine_sound in Hs as [(s1 & s2 & Hs1 & _ & _ & ->) _].
      simpl. destruct (Hcl s1 Hs1). set_solver. }
    rewrite (scan_ext st' (extend st')) by done.
    destruct Hcs as [He|Hin]; [by left|].
    right. simpl. apply elem_of_app. by left.
Qed.

Lemma update_knowledge_clue_sentence (c : cell) (n : Z) (fuel : nat)
    (st st' : AI) :
  clean st → clue_sentence c n st →
  MinesweeperAI.update_knowledge fuel st = Some st' →
  clue_sentence c n st'.
Proof.
  revert st. induction fuel as [|k IH]; intros st Hcl Hcs; simpl; [done|].
  pose proof (pass_clue_sentence c n st Hcl Hcs) as [Hcl' Hcs'].
  destruct (MinesweeperAI.pass st) as [st1 [|]]; simpl in *.
  - by apply IH.
  - by intros [= <-].
Qed.

Lemma record_clue_clue_sentence (c : cell) (n : Z) (st : AI) :
  clue_sentence c n (MinesweeperAI.record_clue c n st).
Proof.
  unfold MinesweeperAI.record_clue, clue_sentence.
  set (st0 := MinesweeperAI.mark_safe c _).
  destruct (MinesweeperAI.scan st0 c) as [nb z] eqn:Hscan.
  case_bool_decide as Hnb.
  - right. rewrite (scan_ext st0) by done. rewrite Hscan. simpl.
    apply elem_of_app. right. by apply list_elem_of_singleton.
  - left. by rewrite Hscan.
Qed.

Lemma add_knowledge_again (c : cell) (n : Z) (fuel : nat) (st st1 : AI) :
  clean st →
  MinesweeperAI.add_knowledge fuel c n st = Some st1 →
  ∃ st2,
    MinesweeperAI.pass st2 = (st2, false) ∧
    MinesweeperAI.record_clue c n st1 = st2 ∧
    height st2 = height st1 ∧ width st2 = width st1 ∧
    moves_made st2 = moves_made st1 ∧ mines st2 = mines st1 ∧
    safes st2 = safes st1 ∧
    (knowledge st2 = knowledge st1 ∨
     ∃ s, s ∈ knowledge st1 ∧ knowledge st2 = knowledge st1 ++ [s]).
Proof.
  intros Hclean Hadd. unfold MinesweeperAI.add_knowledge in Hadd.
  destruct (record_clue_settled_tracked c n st) as (Hset0 & Htr0 & Hmv0).
  destruct (update_knowledge_settled_tracked c fuel _ _ Hset0 Htr0 Hadd)
    as [Hset _].
  pose proof (update_knowledge_clue_sentence c n fuel _ _
                (record_clue_clean c n st Hclean)
                (record_clue_clue_sentence c n st) Hadd) as Hcs.
  assert (c ∈ moves_made st1) as Hmv.
  { destruct (update_knowledge_frame _ _ _ Hadd) as (_ & _ & ->). done. }
  pose proof (update_knowledge_stable _ _ _ Hadd) as Hstable.
  rewrite (record_clue_again c n st1 Hset Hmv).
  case_bool_decide as Hnb.
  - destruct Hcs as [He|Hin]; [done|].
    eexists. split; [by apply stable_duplicate|].
    split_and!; try done. right. eexists. split; [exact Hin|done].
  - exists st1. split_and!; try done. by left.
Qed.

(** * The claims *)

(** C1 as amended: when every sentence of the knowledge base agrees with
    some mine placement [M] and mentions cells of a finite set [U] only,
    the [while changed] loop of [update_knowledge] stops: any budget of at
    least [(2|U| + 1) * (2^|U| + 1)] passes reaches a pass that changes
    nothing. *)
Theorem update_knowledge_terminates (M U : gset cell) (st : AI) (fuel : nat) :
  knowledge_ok M st → bounded U st →
  ((2 * size U + 1) * (2 ^ size U + 1) ≤ fuel)%nat →
  ∃ st', MinesweeperAI.update_knowledge fuel st = Some st'.
Proof.
  intros Hok Hb Hfuel.
  destruct (update_knowledge_measure M U (S (measure U st)) st Hok Hb)
    as [st' Hrun]; [lia|].
  exists st'. apply (update_knowledge_fuel_mono (S (measure U st))); [done|].
  pose proof (measure_bound U st). lia.
Qed.

Lemma update_knowledge_terminates_witness :
  ∃ st', MinesweeperAI.update_knowledge 63 nested_state = Some st'.
Proof.
  apply (update_knowledge_terminates ∅ {[ (0, 0); (0, 1); (1, 1) ]}).
  - repeat constructor.
  - intros s Hs. unfold nested_state in Hs. simpl in Hs.
    apply elem_of_cons in Hs as [->|Hs].
    { apply (bool_decide_unpack _). vm_compute. exact I. }
    apply elem_of_cons in Hs as [->|Hs].
    { apply (bool_decide_unpack _). vm_compute. exact I. }
    by apply elem_of_nil in Hs.
  - apply (bool_decide_unpack _). vm_compute. exact I.
Defined.

Lemma clash_pass : MinesweeperAI.pass clash_state = (clash_state', true).
Proof. vm_compute. reflexivity. Qed.

Lemma clash_pass' : MinesweeperAI.pass clash_state' = (clash_state', true).
Proof. vm_compute. reflexivity. Qed.

Lemma clash_loops (fuel : nat) :
  MinesweeperAI.update_knowledge fuel clash_state' = None.
Proof.
  induction fuel as [|n IH]; [done|].
  cbn [MinesweeperAI.update_knowledge]. rewrite clash_pass'. exact IH.
Qed.

(** C1 as stated fails: on [clash_state], a knowledge base with two
    sentences over three cells of a 2 by 2 board, every pass appends the
    empty sentence [{} = 1] again after pruning it, so no number of passes
    reaches the end of the loop. *)
Lemma update_knowledge_diverges :
  ¬ ∃ fuel st', MinesweeperAI.update_knowledge fuel clash_state = Some st'.
Proof.
  intros (fuel & st' & Hrun). destruct fuel as [|n]; [done|].
  cbn [MinesweeperAI.update_knowledge] in Hrun. rewrite clash_pass in Hrun.
  by rewrite clash_loops in Hrun.
Qed.

(** C2: [known_mines] returns the whole cell set when the count equals the
    number of cells and the empty set otherwise; [known_safes] returns the
    whole cell set when the count is 0 and the empty set otherwise.  For a
    sentence with at least one cell the result tells the two cases apart. *)
Theorem known_mines_known_safes_spec (s : sentence) :
  (count s = Z.of_nat (size (cells s)) → Sentence.known_mines s = cells s) ∧
  (count s ≠ Z.of_nat (size (cells s)) → Sentence.known_mines s = ∅) ∧
  (count s = 0 → Sentence.known_safes s = cells s) ∧
  (count s ≠ 0 → Sentence.known_safes s = ∅) ∧
  (cells s ≠ ∅ →
     (Sentence.known_mines s = cells s ↔ count s = Z.of_nat (size (cells s)))
     ∧ (Sentence.known_safes s = cells s ↔ count s = 0)).
Proof.
  unfold Sentence.known_mines, Sentence.known_safes.
  split_and!.
  - intros H. by rewrite bool_decide_eq_true_2.
  - intros H. by rewrite bool_decide_eq_false_2.
  - intros H. by rewrite bool_decide_eq_true_2.
  - intros H. by rewrite bool_decide_eq_false_2.
  - intros Hne. split; case_bool_decide; split; try done; intros H; congruence.
Qed.

Lemma known_mines_known_safes_witness :
  Sentence.known_mines (Sentence_init {[ (0, 0) ]} 1) = {[ (0, 0) ]} ∧
  Sentence.known_mines (Sentence_init {[ (0, 0); (0, 1) ]} 1) = ∅ ∧
  Sentence.known_safes (Sentence_init {[ (0, 0) ]} 0) = {[ (0, 0) ]} ∧
  Sentence.known_safes (Sentence_init {[ (0, 0) ]} 1) = ∅.
Proof.
  split_and!.
  - destruct (known_mines_known_safes_spec (Sentence_init {[ (0, 0) ]} 1))
      as (H & _).
    apply H. vm_compute. reflexivity.
  - destruct (known_mines_known_safes_spec
                (Sentence_init {[ (0, 0); (0, 1) ]} 1)) as (_ & H & _).
    apply H. vm_compute. discriminate.
  - destruct (known_mines_known_safes_spec (Sentence_init {[ (0, 0) ]} 0))
      as (_ & _ & H & _).
    apply H. reflexivity.
  - destruct (known_mines_known_safes_spec (Sentence_init {[ (0, 0) ]} 1))
      as (_ & _ & _ & H & _).
    apply H. simpl. discriminate.
Defined.

(** C3: every sentence appended by the subtraction loop is the difference
    [(A.cells - B.cells, A.count - B.count)] of two different sentences
    [A], [B] of the list with [B.cells] a non-empty subset of [A.cells],
    and its count is not negative; a pair whose difference has a negative
    count leaves [new_sentences] as it was. *)
Theorem subtraction_never_negative (k : list sentence) :
  (∀ s, s ∈ MinesweeperAI.combine k →
        0 ≤ count s ∧
        ∃ A B, A ∈ k ∧ B ∈ k ∧ A ≠ B ∧ cells B ⊆ cells A ∧ cells B ≠ ∅ ∧
               s = Sentence_init (cells A ∖ cells B) (count A - count B)) ∧
  (∀ A B new, count A - count B < 0 →
              MinesweeperAI.combine_step k A new B = new).
Proof.
  split.
  - intros s Hs.
    apply combine_sound in Hs
      as [(A & B & HA & HB & (Hne & Hsub & HBne & Hcnt) & ->) _].
    split; [done|]. exists A, B. done.
  - intros A B new Hneg.
    destruct (combine_step_cases k A new B) as [(_ & Hel & _)|[-> _]];
      [|done].
    destruct Hel as (_ & _ & _ & Hcnt). lia.
Qed.

Lemma subtraction_never_negative_witness :
  0 ≤ count (Sentence_init {[ (1, 1) ]} 0) ∧
  MinesweeperAI.combine_step (knowledge nested_state)
    (Sentence_init {[ (0, 0); (0, 1) ]} 0) []
    (Sentence_init {[ (0, 0) ]} 1) = [].
Proof.
  destruct (subtraction_never_negative (knowledge nested_state)) as [H1 H2].
  split.
  - apply H1. vm_compute. left.
  - apply H2. simpl. lia.
Defined.

Lemma corner_once_run :
  MinesweeperAI.add_knowledge 1 (1, 1) 1 (MinesweeperAI.init 2 2)
  = Some corner_once.
Proof. vm_compute. reflexivity. Qed.

Lemma corner_two_moves_run :
  MinesweeperAI.add_knowledge 1 (0, 1) 1 corner_once = Some corner_two_moves.
Proof. vm_compute. reflexivity. Qed.

Lemma corner_clue_11 : valid_clue corner_game (1, 1) 1.
Proof.
  split_and!; try (simpl; lia).
  - apply (bool_decide_unpack _). vm_compute. exact I.
  - vm_compute. reflexivity.
Qed.

Lemma corner_clue_01 : valid_clue corner_game (0, 1) 1.
Proof.
  split_and!; try (simpl; lia).
  - apply (bool_decide_unpack _). vm_compute. exact I.
  - vm_compute. reflexivity.
Qed.

Lemma corner_once_reachable : reachable corner_game corner_once.
Proof.
  apply (reachable_add corner_game (MinesweeperAI.init 2 2) corner_once
           (1, 1) 1 1).
  - apply (reachable_init corner_game).
  - apply corner_clue_11.
  - apply corner_once_run.
Qed.

Lemma corner_two_moves_reachable : reachable corner_game corner_two_moves.
Proof.
  apply (reachable_add corner_game corner_once corner_two_moves (0, 1) 1 1).
  - apply corner_once_reachable.
  - apply corner_clue_01.
  - apply corner_two_moves_run.
Qed.

(** C4: in every state the player reaches on a board by [add_knowledge]
    calls with clues of that board (the revealed cell is on the board and
    not a mine, the number is the board's count), [mines] and [safes] have
    no cell in common, and this still holds after one more such call. *)
Theorem mines_safes_disjoint (g : Minesweeper.game) (st : AI) :
  reachable g st →
  mines st ∩ safes st = ∅ ∧
  ∀ c n fuel st', valid_clue g c n →
                  MinesweeperAI.add_knowledge fuel c n st = Some st' →
                  mines st' ∩ safes st' = ∅.
Proof.
  intros Hr.
  assert (∀ st0, agrees g st0 → mines st0 ∩ safes st0 = ∅) as Hdisj.
  { intros st0 (_ & _ & Hm & Hs & _). set_solver. }
  split.
  - by apply Hdisj, reachable_agrees.
  - intros c n fuel st' Hclue Hadd. apply Hdisj.
    eapply add_knowledge_agrees; [|done..]. by apply reachable_agrees.
Qed.

Lemma mines_safes_disjoint_witness :
  mines corner_once ∩ safes corner_once = ∅ ∧
  ∀ c n fuel st', valid_clue corner_game c n →
                  MinesweeperAI.add_knowledge fuel c n corner_once = Some st' →
                  mines st' ∩ safes st' = ∅.
Proof.
  apply (mines_safes_disjoint corner_game corner_once).
  apply corner_once_reachable.
Defined.

(** C5 as stated fails: after the clues [((1, 1), 1)] and [((0, 1), 1)] on
    the 2 by 2 board with a mine at [(0, 0)], the knowledge list holds the
    sentence [{(0, 0), (1, 0)} = 1] twice. *)
Lemma knowledge_has_duplicates :
  reachable corner_game corner_two_moves ∧ ¬ NoDup (knowledge corner_two_moves).
Proof.
  split; [apply corner_two_moves_reachable|].
  simpl. intros Hnd. apply NoDup_cons in Hnd as [Hnin _].
  apply Hnin. left.
Qed.

(** C5 as amended: the subtraction loop appends a candidate only when it
    is equal to no sentence of the knowledge list and to no candidate
    appended before it in the same pass; so the appended sentences are
    pairwise different and different from the listed ones, and a list
    without equal sentences stays without them. *)
Theorem subtraction_appends_no_duplicate (k : list sentence) :
  NoDup (MinesweeperAI.combine k) ∧
  (∀ s, s ∈ MinesweeperAI.combine k → s ∉ k) ∧
  (NoDup k → NoDup (k ++ MinesweeperAI.combine k)).
Proof.
  destruct (combine_sound k) as [Hnd Hnew]. split_and!.
  - done.
  - intros s Hs. by apply Hnew.
  - intros Hk. apply NoDup_app. split_and!; [done| |done].
    intros s Hs Hin. by apply (Hnew s Hin).
Qed.

Lemma subtraction_appends_no_duplicate_witness :
  NoDup (knowledge nested_state
         ++ MinesweeperAI.combine (knowledge nested_state)).
Proof.
  apply (subtraction_appends_no_duplicate (knowledge nested_state)).
  apply (bool_decide_unpack _). vm_compute. exact I.
Defined.

Lemma corner_twice_run :
  MinesweeperAI.add_knowledge 1 (1, 1) 1 corner_once = Some corner_twice.
Proof. vm_compute. reflexivity. Qed.

(** C6 as stated fails: on a fresh 2 by 2 player the clue [((1, 1), 1)] fed
    once leaves one sentence, fed twice it leaves two equal sentences, so
    the two final states differ. *)
Lemma add_knowledge_twice_differs :
  MinesweeperAI.add_knowledge 1 (1, 1) 1 (MinesweeperAI.init 2 2)
    = Some corner_once ∧
  MinesweeperAI.add_knowledge 1 (1, 1) 1 corner_once = Some corner_twice ∧
  corner_twice ≠ corner_once.
Proof.
  split_and!; [apply corner_once_run|apply corner_twice_run|].
  intros Heq. apply (f_equal (λ st, length (knowledge st))) in Heq.
  simpl in Heq. discriminate.
Qed.

(** C6 as amended: for every state in which no sentence mentions a proven
    mine or a proven safe cell, every cell and every count, when
    [add_knowledge(cell, count)] returns, feeding the same clue a second
    time ends after one pass and leaves [moves_made], [mines] and [safes]
    as the first call left them; the knowledge list is either unchanged or
    one copy of a sentence it already holds longer. *)
Theorem add_knowledge_twice (c : cell) (n : Z) (fuel : nat) (st st1 : AI) :
  clean st →
  MinesweeperAI.add_knowledge fuel c n st = Some st1 →
  ∃ st2,
    (∀ fuel', (1 ≤ fuel')%nat →
              MinesweeperAI.add_knowledge fuel' c n st1 = Some st2) ∧
    height st2 = height st1 ∧ width st2 = width st1 ∧
    moves_made st2 = moves_made st1 ∧ mines st2 = mines st1 ∧
    safes st2 = safes st1 ∧
    (knowledge st2 = knowledge st1 ∨
     ∃ s, s ∈ knowledge st1 ∧ knowledge st2 = knowledge st1 ++ [s]).
Proof.
  intros Hclean Hadd.
  destruct (add_knowledge_again c n fuel st st1 Hclean Hadd)
    as (st2 & Hstable & Hrec & Hh & Hw & Hmv & Hmi & Hsa & Hk).
  exists st2. split_and!; try done.
  intros fuel' Hfuel. unfold MinesweeperAI.add_knowledge. rewrite Hrec.
  apply (update_knowledge_fuel_mono 1); [|done].
  cbn [MinesweeperAI.update_knowledge]. by rewrite Hstable.
Qed.

Lemma add_knowledge_twice_witness :
  ∃ st2,
    (∀ fuel', (1 ≤ fuel')%nat →
              MinesweeperAI.add_knowledge fuel' (1, 1) 1 corner_once
              = Some st2) ∧
    height st2 = height corner_once ∧ width st2 = width corner_once ∧
    moves_made st2 = moves_made corner_once ∧
    mines st2 = mines corner_once ∧ safes st2 = safes corner_once ∧
    (knowledge st2 = knowledge corner_once ∨
     ∃ s, s ∈ knowledge corner_once
          ∧ knowledge st2 = knowledge corner_once ++ [s]).
Proof.
  apply (add_knowledge_twice (1, 1) 1 1 (MinesweeperAI.init 2 2)).
  - by intros s ?%elem_of_nil.
  - apply corner_once_run.
Defined.

Lemma iter_pass_agrees (g : Minesweeper.game) (k : nat) (st : AI) :
  agrees g st →
  agrees g (Nat.iter k (λ x, (MinesweeperAI.pass x).1) st).
Proof.
  intros Hst. induction k as [|k IH]; [done|]. simpl.
  destruct IH as (Hh & Hw & Hc).
  destruct (pass_frame (Nat.iter k (λ x, (MinesweeperAI.pass x).1) st))
    as (Hh' & Hw' & _).
  split_and!; [congruence|congruence|]. by apply pass_consistent.
Qed.

(** C7: in every state the player reaches on a board by [add_knowledge]
    calls with clues of that board, every sentence of the knowledge list
    has [0 <= count <= len(cells)]; the same holds while a further such
    call runs: after its new sentence is appended and after each pass of
    the loop. *)
Theorem knowledge_counts_in_range (g : Minesweeper.game) (st : AI) :
  reachable g st →
  (∀ s, s ∈ knowledge st → 0 ≤ count s ≤ Z.of_nat (size (cells s))) ∧
  (∀ c n k s, valid_clue g c n →
     s ∈ knowledge (Nat.iter k (λ x, (MinesweeperAI.pass x).1)
                      (MinesweeperAI.record_clue c n st)) →
     0 ≤ count s ≤ Z.of_nat (size (cells s))).
Proof.
  intros Hr%reachable_agrees.
  assert (∀ st0 s, agrees g st0 → s ∈ knowledge st0 →
                   0 ≤ count s ≤ Z.of_nat (size (cells s))) as Hrange.
  { intros st0 s (_ & _ & _ & _ & Hk) Hs.
    unfold knowledge_ok in Hk. rewrite Forall_forall in Hk.
    by apply (sentence_ok_bounds (Minesweeper.mines g)), Hk. }
  split.
  - intros s. by apply Hrange.
  - intros c n k s Hclue. apply Hrange.
    by apply iter_pass_agrees, record_clue_agrees.
Qed.

Lemma knowledge_counts_in_range_witness :
  (∀ s, s ∈ knowledge corner_two_moves →
        0 ≤ count s ≤ Z.of_nat (size (cells s))) ∧
  (∀ c n k s, valid_clue corner_game c n →
     s ∈ knowledge (Nat.iter k (λ x, (MinesweeperAI.pass x).1)
                      (MinesweeperAI.record_clue c n corner_two_moves)) →
     0 ≤ count s ≤ Z.of_nat (size (cells s))).
Proof.
  apply (knowledge_counts_in_range corner_game corner_two_moves).
  apply corner_two_moves_reachable.
Defined.

(** C8: when [c] is a cell of sentence [S], [S.mark_mine(c)] removes [c]
    from the cells and lowers the count by exactly 1, and a second
    [mark_mine(c)] changes nothing; when [c] is not a cell of [S],
    [mark_mine(c)] changes nothing. *)
Theorem Sentence_mark_mine_spec (s : sentence) (c : cell) :
  (c ∈ cells s →
     c ∉ cells (Sentence.mark_mine c s) ∧
     cells (Sentence.mark_mine c s) = cells s ∖ {[c]} ∧
     count (Sentence.mark_mine c s) = count s - 1 ∧
     Sentence.mark_mine c (Sentence.mark_mine c s) = Sentence.mark_mine c s) ∧
  (c ∉ cells s → Sentence.mark_mine c s = s).
Proof.
  split.
  - intros Hc. unfold Sentence.mark_mine at 1 2 3 5 6.
    rewrite !(bool_decide_eq_true_2 _ Hc). simpl.
    split_and!; [set_solver|done|done|].
    unfold Sentence.mark_mine. simpl.
    rewrite bool_decide_eq_false_2 by set_solver. done.
  - intros Hc. unfold Sentence.mark_mine.
    by rewrite bool_decide_eq_false_2.
Qed.

Lemma Sentence_mark_mine_witness :
  count (Sentence.mark_mine (0, 0) (Sentence_init {[ (0, 0); (0, 1) ]} 1))
    = 1 - 1 ∧
  Sentence.mark_mine (1, 1) (Sentence_init {[ (0, 0); (0, 1) ]} 1)
    = Sentence_init {[ (0, 0); (0, 1) ]} 1.
Proof.
  split.
  - destruct (Sentence_mark_mine_spec
                (Sentence_init {[ (0, 0); (0, 1) ]} 1) (0, 0)) as [H _].
    apply H. apply (bool_decide_unpack _). vm_compute. exact I.
  - destruct (Sentence_mark_mine_spec
                (Sentence_init {[ (0, 0); (0, 1) ]} 1) (1, 1)) as [_ H].
    apply H. apply (bool_decide_unpack _). vm_compute. exact I.
Defined.

Lemma make_random_move_elem (rnd : nat) (st : AI) (c : cell) :
  MinesweeperAI.make_random_move rnd st = Some c →
  c ∈ MinesweeperAI.all_cells st ∖ moves_made st ∖ mines st.
Proof.
  unfold MinesweeperAI.make_random_move.
  set (X := MinesweeperAI.all_cells st ∖ moves_made st ∖ mines st).
  destruct (elements X) as [|x l] eqn:HX; [done|]. rewrite <- HX.
  intros Hc. apply elem_of_elements. by eapply list_elem_of_lookup_2.
Qed.

Lemma make_random_move_draw (st : AI) (x : cell) :
  x ∈ MinesweeperAI.all_cells st ∖ moves_made st ∖ mines st →
  ∃ rnd, MinesweeperAI.make_random_move rnd st = Some x.
Proof.
  unfold MinesweeperAI.make_random_move.
  set (X := MinesweeperAI.all_cells st ∖ moves_made st ∖ mines st).
  intros Hx%elem_of_elements. pose proof Hx as Hx'.
  apply list_elem_of_lookup_1 in Hx as [i Hi].
  pose proof (lookup_lt_Some _ _ _ Hi) as Hlt.
  exists i. destruct (elements X) as [|y l] eqn:HX; [by inversion Hx'|].
  rewrite <- HX in *. by rewrite Nat.mod_small.
Qed.

Lemma make_random_move_some (rnd : nat) (st : AI) (x : cell) :
  x ∈ MinesweeperAI.all_cells st ∖ moves_made st ∖ mines st →
  ∃ c, MinesweeperAI.make_random_move rnd st = Some c.
Proof.
  unfold MinesweeperAI.make_random_move.
  set (X := MinesweeperAI.all_cells st ∖ moves_made st ∖ mines st).
  intros Hx%elem_of_elements.
  destruct (elements X) as [|y l] eqn:HX; [by inversion Hx|].
  rewrite <- HX.
  apply (lookup_lt_is_Some_2 (elements X)).
  apply Nat.mod_upper_bound. by rewrite HX.
Qed.

(** C9: with [all_cells] the cells [(i, j)], [0 <= i < height],
    [0 <= j < width], [make_random_move] returns a cell of
    [all_cells - moves_made - mines] when that set is not empty, whatever
    number the generator draws, and [None] when it is empty; so a returned
    cell is on the board, was not played and is not a proven mine, [None]
    is returned exactly when every cell of the board was played or is a
    proven mine, and every other cell of the board is returned for some
    draw. *)
Theorem make_random_move_spec (st : AI) :
  (∀ x, x ∈ MinesweeperAI.all_cells st ↔
        (0 ≤ x.1 < height st) ∧ (0 ≤ x.2 < width st)) ∧
  (∀ rnd, MinesweeperAI.all_cells st ∖ moves_made st ∖ mines st ≠ ∅ →
     ∃ c, MinesweeperAI.make_random_move rnd st = Some c ∧
          c ∈ MinesweeperAI.all_cells st ∖ moves_made st ∖ mines st) ∧
  (∀ rnd, MinesweeperAI.all_cells st ∖ moves_made st ∖ mines st = ∅ →
     MinesweeperAI.make_random_move rnd st = None) ∧
  (∀ rnd c, MinesweeperAI.make_random_move rnd st = Some c →
        (0 ≤ c.1 < height st) ∧ (0 ≤ c.2 < width st) ∧
        c ∉ moves_made st ∧ c ∉ mines st) ∧
  (∀ rnd, MinesweeperAI.make_random_move rnd st = None ↔
        ∀ x, (0 ≤ x.1 < height st) → (0 ≤ x.2 < width st) →
             x ∈ moves_made st ∨ x ∈ mines st) ∧
  (∀ x, (0 ≤ x.1 < height st) → (0 ≤ x.2 < width st) →
        x ∉ moves_made st → x ∉ mines st →
        ∃ rnd, MinesweeperAI.make_random_move rnd st = Some x).
Proof.
  assert (∀ x, x ∈ MinesweeperAI.all_cells st ∖ moves_made st ∖ mines st ↔
               ((0 ≤ x.1 < height st) ∧ (0 ≤ x.2 < width st))
               ∧ x ∉ moves_made st ∧ x ∉ mines st) as Havail.
  { intros x. rewrite !elem_of_difference, elem_of_all_cells. tauto. }
  split_and!.
  - intros x. apply elem_of_all_cells.
  - intros rnd [x Hx]%set_choose_L.
    destruct (make_random_move_some rnd st x Hx) as [c Hc].
    exists c. split; [done|]. by apply (make_random_move_elem rnd).
  - intros rnd He.
    destruct (MinesweeperAI.make_random_move rnd st) as [c|] eqn:Hc; [|done].
    apply make_random_move_elem in Hc. rewrite He in Hc. set_solver.
  - intros rnd c Hc%make_random_move_elem%Havail. tauto.
  - intros rnd. split.
    + intros Hnone x Hi Hj.
      destruct (decide (x ∈ moves_made st)) as [?|Hmv]; [by left|].
      destruct (decide (x ∈ mines st)) as [?|Hmi]; [by right|].
      assert (x ∈ MinesweeperAI.all_cells st ∖ moves_made st ∖ mines st)
        as Hx by (apply Havail; tauto).
      destruct (make_random_move_some rnd st x Hx) as [c Hc]. congruence.
    + intros Hall.
      destruct (MinesweeperAI.make_random_move rnd st) as [c|] eqn:Hc; [|done].
      apply make_random_move_elem, Havail in Hc as ((Hi & Hj) & Hmv & Hmi).
      destruct (Hall c Hi Hj); done.
  - intros x Hi Hj Hmv Hmi. apply make_random_move_draw, Havail. tauto.
Qed.

Lemma make_random_move_witness :
  (∃ c, MinesweeperAI.make_random_move 7 corner_once = Some c ∧
        c ∈ MinesweeperAI.all_cells corner_once
            ∖ moves_made corner_once ∖ mines corner_once) ∧
  MinesweeperAI.make_random_move 7 (MinesweeperAI.init 0 3) = None ∧
  (∃ rnd, MinesweeperAI.make_random_move rnd corner_once = Some (0, 0)).
Proof.
  split_and!.
  - destruct (make_random_move_spec corner_once) as (_ & H & _).
    apply H. apply (bool_decide_unpack _). vm_compute. exact I.
  - destruct (make_random_move_spec (MinesweeperAI.init 0 3))
      as (_ & _ & H & _).
    apply H. vm_compute. reflexivity.
  - destruct (make_random_move_spec corner_once) as (_ & _ & _ & _ & _ & H).
    apply H; simpl; try lia; apply (bool_decide_unpack _); vm_compute; exact I.
Defined.

(** C10: the knowledge-base [mark_mine(c)] adds [c] to [mines], applies
    the sentence's [mark_mine(c)] to every sentence, and leaves
    [moves_made], [safes] and the board size as they were; [mark_safe(c)]
    does the same for [safes] and leaves [moves_made] and [mines]. *)
Theorem mark_frame (c : cell) (st : AI) :
  (moves_made (MinesweeperAI.mark_mine c st) = moves_made st ∧
   safes (MinesweeperAI.mark_mine c st) = safes st ∧
   height (MinesweeperAI.mark_mine c st) = height st ∧
   width (MinesweeperAI.mark_mine c st) = width st ∧
   (∀ x, x ∈ mines (MinesweeperAI.mark_mine c st) ↔ x = c ∨ x ∈ mines st) ∧
   knowledge (MinesweeperAI.mark_mine c st)
     = Sentence.mark_mine c <$> knowledge st) ∧
  (moves_made (MinesweeperAI.mark_safe c st) = moves_made st ∧
   mines (MinesweeperAI.mark_safe c st) = mines st ∧
   height (MinesweeperAI.mark_safe c st) = height st ∧
   width (MinesweeperAI.mark_safe c st) = width st ∧
   (∀ x, x ∈ safes (MinesweeperAI.mark_safe c st) ↔ x = c ∨ x ∈ safes st) ∧
   knowledge (MinesweeperAI.mark_safe c st)
     = Sentence.mark_safe c <$> knowledge st).
Proof.
  split; split_and!; try done; intros x; simpl; set_solver.
Qed.

(** * Further properties of the code *)

(** ** The board's neighbour count *)

Lemma elem_of_block (c x : cell) :
  x ∈ block c ↔ (c.1 - 1 ≤ x.1 ≤ c.1 + 1) ∧ (c.2 - 1 ≤ x.2 ≤ c.2 + 1).
Proof.
  unfold block. rewrite list_elem_of_bind. split.
  - intros (i & Hj & Hi). apply list_elem_of_bind in Hj as (j & Hx & Hj).
    apply list_elem_of_singleton in Hx as ->. simpl.
    apply elem_of_range in Hi, Hj. lia.
  - intros [Hi Hj]. exists x.1. split; [|apply elem_of_range; lia].
    apply list_elem_of_bind. exists x.2. split; [|apply elem_of_range; lia].
    destruct x. simpl. by apply list_elem_of_singleton.
Qed.

Lemma length_block (c : cell) : length (block c) = 9%nat.
Proof. by rewrite block_eq. Qed.

Lemma elem_of_neighbours (g : Minesweeper.game) (c x : cell) :
  x ∈ neighbours g c ↔
  x ≠ c ∧ (c.1 - 1 ≤ x.1 ≤ c.1 + 1) ∧ (c.2 - 1 ≤ x.2 ≤ c.2 + 1) ∧
  (0 ≤ x.1 < Minesweeper.height g) ∧ (0 ≤ x.2 < Minesweeper.width g).
Proof.
  unfold neighbours, borders.
  rewrite elem_of_list_to_set, list_elem_of_filter, elem_of_block. tauto.
Qed.

(** X1: [nearby_mines(cell)] is the number of mines among the cells that
    differ from [cell] by at most one row and one column and lie on the
    board; the cell itself is never counted, and the result is between 0
    and 8. *)
Theorem nearby_mines_counts_neighbours (g : Minesweeper.game) (c : cell) :
  Minesweeper.nearby_mines g c
    = Z.of_nat (size (neighbours g c ∩ Minesweeper.mines g)) ∧
  0 ≤ Minesweeper.nearby_mines g c ≤ 8 ∧
  (∀ x, x ∈ neighbours g c ↔
        x ≠ c ∧ (c.1 - 1 ≤ x.1 ≤ c.1 + 1) ∧ (c.2 - 1 ≤ x.2 ≤ c.2 + 1) ∧
        (0 ≤ x.1 < Minesweeper.height g) ∧ (0 ≤ x.2 < Minesweeper.width g)).
Proof.
  split; [|split].
  - unfold Minesweeper.nearby_mines, neighbours.
    rewrite nearby_fold, size_filter_inter by apply NoDup_block. done.
  - unfold Minesweeper.nearby_mines. rewrite nearby_fold. split; [lia|].
    assert (length (filter
              (λ ij, borders (Minesweeper.height g) (Minesweeper.width g) c ij
                     ∧ ij ∈ Minesweeper.mines g) (block c))
            < length (block c))%nat as Hlt.
    { apply (length_filter_lt _ _ c).
      - apply elem_of_block. lia.
      - unfold borders. tauto. }
    rewrite length_block in Hlt. lia.
  - apply elem_of_neighbours.
Qed.

(** ** Removing a safe cell from a sentence *)

(** X2: when [c] is a cell of sentence [S], [S.mark_safe(c)] removes [c]
    and keeps the count; a second call, or a call with a cell that is not
    in [S], changes nothing. *)
Theorem Sentence_mark_safe_spec (s : sentence) (c : cell) :
  (∀ x, x ∈ cells (Sentence.mark_safe c s) ↔ x ∈ cells s ∧ x ≠ c) ∧
  count (Sentence.mark_safe c s) = count s ∧
  Sentence.mark_safe c (Sentence.mark_safe c s) = Sentence.mark_safe c s ∧
  (c ∉ cells s → Sentence.mark_safe c s = s).
Proof.
  split_and!.
  - intros x. rewrite cells_Sentence_mark_safe. set_solver.
  - unfold Sentence.mark_safe. by case_bool_decide.
  - unfold Sentence.mark_safe at 1.
    rewrite bool_decide_eq_false_2; [done|].
    rewrite cells_Sentence_mark_safe. set_solver.
  - intros Hc. unfold Sentence.mark_safe. by rewrite bool_decide_eq_false_2.
Qed.

Lemma Sentence_mark_safe_witness :
  Sentence.mark_safe (1, 1) (Sentence_init {[ (0, 0); (0, 1) ]} 1)
    = Sentence_init {[ (0, 0); (0, 1) ]} 1.
Proof.
  destruct (Sentence_mark_safe_spec
              (Sentence_init {[ (0, 0); (0, 1) ]} 1) (1, 1)) as (_ & _ & _ & H).
  apply H. apply (bool_decide_unpack _). vm_compute. exact I.
Defined.

(** ** The order in which a set is iterated does not matter *)

Lemma Sentence_mark_mine_comm (x y : cell) (s : sentence) :
  Sentence.mark_mine x (Sentence.mark_mine y s)
  = Sentence.mark_mine y (Sentence.mark_mine x s).
Proof.
  apply sentence_ext.
  - rewrite !cells_Sentence_mark_mine. set_solver.
  - unfold Sentence.mark_mine.
    destruct (decide (x ∈ cells s)) as [Hx|Hx];
      destruct (decide (y ∈ cells s)) as [Hy|Hy];
      destruct (decide (x = y)) as [->|Hxy];
      repeat (case_bool_decide; simpl in * ); try lia; set_solver.
Qed.

Lemma Sentence_mark_safe_comm (x y : cell) (s : sentence) :
  Sentence.mark_safe x (Sentence.mark_safe y s)
  = Sentence.mark_safe y (Sentence.mark_safe x s).
Proof.
  apply sentence_ext.
  - rewrite !cells_Sentence_mark_safe. set_solver.
  - unfold Sentence.mark_safe. repeat (case_bool_decide; simpl in * ); done.
Qed.

Lemma mark_mine_comm (x y : cell) (st : AI) :
  MinesweeperAI.mark_mine x (MinesweeperAI.mark_mine y st)
  = MinesweeperAI.mark_mine y (MinesweeperAI.mark_mine x st).
Proof.
  unfold MinesweeperAI.mark_mine. simpl. f_equal; [set_solver|].
  rewrite <- !list_fmap_compose. apply list_fmap_ext.
  intros i s _. apply Sentence_mark_mine_comm.
Qed.

Lemma mark_safe_comm (x y : cell) (st : AI) :
  MinesweeperAI.mark_safe x (MinesweeperAI.mark_safe y st)
  = MinesweeperAI.mark_safe y (MinesweeperAI.mark_safe x st).
Proof.
  unfold MinesweeperAI.mark_safe. simpl. f_equal; [set_solver|].
  rewrite <- !list_fmap_compose. apply list_fmap_ext.
  intros i s _. apply Sentence_mark_safe_comm.
Qed.

Lemma mark_mine_step_in (st : AI) (b : bool) (x : cell) :
  x ∈ mines st → MinesweeperAI.mark_mine_step (st, b) x = (st, b).
Proof.
  intros Hx. unfold MinesweeperAI.mark_mine_step. simpl.
  rewrite bool_decide_eq_false_2; [done|tauto].
Qed.

Lemma mark_mine_step_out (st : AI) (b : bool) (x : cell) :
  x ∉ mines st →
  MinesweeperAI.mark_mine_step (st, b) x = (MinesweeperAI.mark_mine x st, true).
Proof.
  intros Hx. unfold MinesweeperAI.mark_mine_step. simpl.
  by rewrite bool_decide_eq_true_2.
Qed.

Lemma mark_safe_step_in (st : AI) (b : bool) (x : cell) :
  x ∈ safes st → MinesweeperAI.mark_safe_step (st, b) x = (st, b).
Proof.
  intros Hx. unfold MinesweeperAI.mark_safe_step. simpl.
  rewrite bool_decide_eq_false_2; [done|tauto].
Qed.

Lemma mark_safe_step_out (st : AI) (b : bool) (x : cell) :
  x ∉ safes st →
  MinesweeperAI.mark_safe_step (st, b) x = (MinesweeperAI.mark_safe x st, true).
Proof.
  intros Hx. unfold MinesweeperAI.mark_safe_step. simpl.
  by rewrite bool_decide_eq_true_2.
Qed.

Lemma mark_mine_step_comm (acc : AI * bool) (x y : cell) :
  MinesweeperAI.mark_mine_step (MinesweeperAI.mark_mine_step acc x) y
  = MinesweeperAI.mark_mine_step (MinesweeperAI.mark_mine_step acc y) x.
Proof.
  destruct (decide (x = y)) as [->|Hxy]; [done|].
  destruct acc as [st b].
  assert (∀ u v : cell, u ∈ mines (MinesweeperAI.mark_mine v st)
                        ↔ u = v ∨ u ∈ mines st) as Hin.
  { intros u v. simpl. set_solver. }
  destruct (decide (x ∈ mines st)) as [Hx|Hx];
    destruct (decide (y ∈ mines st)) as [Hy|Hy].
  - by rewrite (mark_mine_step_in st b x), (mark_mine_step_in st b y),
      (mark_mine_step_in st b x).
  - rewrite (mark_mine_step_in st b x), (mark_mine_step_out st b y) by done.
    rewrite mark_mine_step_in; [done|]. apply Hin. by right.
  - rewrite (mark_mine_step_out st b x), (mark_mine_step_in st b y) by done.
    rewrite mark_mine_step_in; [|apply Hin; by right].
    by rewrite mark_mine_step_out.
  - rewrite (mark_mine_step_out st b x), (mark_mine_step_out st b y) by done.
    rewrite !mark_mine_step_out; [by rewrite mark_mine_comm|..];
      rewrite Hin; intros [?|?]; congruence.
Qed.

Lemma mark_safe_step_comm (acc : AI * bool) (x y : cell) :
  MinesweeperAI.mark_safe_step (MinesweeperAI.mark_safe_step acc x) y
  = MinesweeperAI.mark_safe_step (MinesweeperAI.mark_safe_step acc y) x.
Proof.
  destruct (decide (x = y)) as [->|Hxy]; [done|].
  destruct acc as [st b].
  assert (∀ u v : cell, u ∈ safes (MinesweeperAI.mark_safe v st)
                        ↔ u = v ∨ u ∈ safes st) as Hin.
  { intros u v. simpl. set_solver. }
  destruct (decide (x ∈ safes st)) as [Hx|Hx];
    destruct (decide (y ∈ safes st)) as [Hy|Hy].
  - by rewrite (mark_safe_step_in st b x), (mark_safe_step_in st b y),
      (mark_safe_step_in st b x).
  - rewrite (mark_safe_step_in st b x), (mark_safe_step_out st b y) by done.
    rewrite mark_safe_step_in; [done|]. apply Hin. by right.
  - rewrite (mark_safe_step_out st b x), (mark_safe_step_in st b y) by done.
    rewrite mark_safe_step_in; [|apply Hin; by right].
    by rewrite mark_safe_step_out.
  - rewrite (mark_safe_step_out st b x), (mark_safe_step_out st b y) by done.
    rewrite !mark_safe_step_out; [by rewrite mark_safe_comm|..];
      rewrite Hin; intros [?|?]; congruence.
Qed.

Lemma foldl_permutation {A B : Type} (f : A → B → A) (l l' : list B) :
  (∀ a x y, f (f a x) y = f (f a y) x) → l ≡ₚ l' →
  ∀ a, foldl f a l = foldl f a l'.
Proof.
  intros Hcomm. induction 1 as [|x l l' _ IH|x y l|l l' l'' _ IH1 _ IH2];
    intros a; simpl.
  - done.
  - apply IH.
  - by rewrite Hcomm.
  - by rewrite IH1.
Qed.

(** X3: the two marking loops of a pass iterate over Python sets; in
    whatever order the cells come, the object and the [changed] flag after
    the loops are the same. *)
Theorem marking_order_irrelevant (st : AI) (l1 l2 : list cell) :
  l1 ≡ₚ elements (MinesweeperAI.extract (knowledge st)).1 →
  l2 ≡ₚ elements (MinesweeperAI.extract (knowledge st)).2 →
  foldl MinesweeperAI.mark_safe_step
    (foldl MinesweeperAI.mark_mine_step (st, false) l1) l2
  = marked st.
Proof.
  intros H1 H2. unfold marked.
  rewrite (foldl_permutation _ _ _ mark_mine_step_comm H1).
  apply (foldl_permutation _ _ _ mark_safe_step_comm H2).
Qed.

Lemma marking_order_irrelevant_witness :
  foldl MinesweeperAI.mark_safe_step
    (foldl MinesweeperAI.mark_mine_step (nested_state, false) [])
    [(1, 1); (0, 1); (0, 0)]
  = marked nested_state.
Proof.
  apply (marking_order_irrelevant nested_state [] [(1, 1); (0, 1); (0, 0)]).
  - vm_compute. constructor.
  - apply (bool_decide_unpack _). vm_compute. exact I.
Defined.

(** ** Soundness of the deductions *)

(** X4: in every state the player reaches on a board with clues of that
    board, every proven mine is a mine of the board, no proven safe is one,
    and the count of every sentence is the number of the board's mines
    among its cells. *)
Theorem deductions_sound (g : Minesweeper.game) (st : AI) :
  reachable g st →
  mines st ⊆ Minesweeper.mines g ∧
  safes st ∩ Minesweeper.mines g = ∅ ∧
  ∀ s, s ∈ knowledge st →
       count s = Z.of_nat (size (cells s ∩ Minesweeper.mines g)).
Proof.
  intros (_ & _ & Hm & Hs & Hk)%reachable_agrees. split_and!.
  - done.
  - set_solver.
  - unfold knowledge_ok in Hk. rewrite Forall_forall in Hk. exact Hk.
Qed.

Lemma deductions_sound_witness :
  mines corner_two_moves ⊆ Minesweeper.mines corner_game ∧
  safes corner_two_moves ∩ Minesweeper.mines corner_game = ∅ ∧
  ∀ s, s ∈ knowledge corner_two_moves →
       count s = Z.of_nat (size (cells s ∩ Minesweeper.mines corner_game)).
Proof.
  apply (deductions_sound corner_game corner_two_moves).
  apply corner_two_moves_reachable.
Defined.

(** ** Picking a safe move *)

Lemma find_Some_elem {A : Type} (f : A → bool) (l : list A) (x : A) :
  find f l = Some x → x ∈ l ∧ f x = true.
Proof.
  induction l as [|y l IH]; simpl; [done|].
  destruct (f y) eqn:Hy.
  - intros [= ->]. split; [left|done].
  - intros [Hx Hf]%IH. split; [by right|done].
Qed.

Lemma find_None_iff {A : Type} (f : A → bool) (l : list A) :
  find f l = None ↔ ∀ x, x ∈ l → f x = false.
Proof.
  induction l as [|y l IH]; simpl.
  - split; [|done]. by intros _ x ?%elem_of_nil.
  - destruct (f y) eqn:Hy.
    + split; [done|]. intros H. specialize (H y). rewrite Hy in H.
      discriminate H. left.
    + rewrite IH. split.
      * intros H x [->|Hx]%elem_of_cons; auto.
      * intros H x Hx. apply H. by right.
Qed.

(** X5: whatever the order in which the set [safes] is iterated,
    [make_safe_move] returns a proven safe cell that was not played yet,
    and it returns [None] exactly when every proven safe cell was played. *)
Theorem make_safe_move_spec (order : list cell) (st : AI) :
  (∀ x, x ∈ order ↔ x ∈ safes st) →
  (∀ c, MinesweeperAI.make_safe_move order st = Some c →
        c ∈ safes st ∧ c ∉ moves_made st) ∧
  (MinesweeperAI.make_safe_move order st = None ↔
   safes st ⊆ moves_made st).
Proof.
  intros Horder. unfold MinesweeperAI.make_safe_move. split.
  - intros c [Hc Hf]%find_Some_elem. apply bool_decide_eq_true in Hf.
    split; [by apply Horder|done].
  - rewrite find_None_iff. split.
    + intros H x Hx%Horder. specialize (H x Hx).
      apply bool_decide_eq_false in H. by apply dec_stable.
    + intros H x Hx%Horder. apply bool_decide_eq_false. intros Hn.
      apply Hn. by apply H.
Qed.

Lemma make_safe_move_witness :
  (∀ c, MinesweeperAI.make_safe_move [(1, 1); (0, 1)] corner_two_moves
        = Some c →
        c ∈ safes corner_two_moves ∧ c ∉ moves_made corner_two_moves) ∧
  (MinesweeperAI.make_safe_move [(1, 1); (0, 1)] corner_two_moves = None ↔
   safes corner_two_moves ⊆ moves_made corner_two_moves).
Proof.
  apply (make_safe_move_spec [(1, 1); (0, 1)] corner_two_moves).
  intros x. unfold corner_two_moves. simpl.
  rewrite !elem_of_cons, elem_of_nil, elem_of_union, !elem_of_singleton.
  tauto.
Defined.

(** X6: on a reachable state a cell returned by [make_safe_move] is not a
    mine of the board. *)
Theorem safe_move_is_safe (g : Minesweeper.game) (order : list cell)
    (st : AI) (c : cell) :
  reachable g st → (∀ x, x ∈ order ↔ x ∈ safes st) →
  MinesweeperAI.make_safe_move order st = Some c →
  c ∉ Minesweeper.mines g ∧ c ∉ moves_made st.
Proof.
  intros (_ & _ & _ & Hs & _)%reachable_agrees Horder Hmove.
  unfold MinesweeperAI.make_safe_move in Hmove.
  apply find_Some_elem in Hmove as [Hc%Horder Hf].
  apply bool_decide_eq_true in Hf. split; [set_solver|done].
Qed.

(** ** What a call of add_knowledge changes *)

Lemma pass_grows (st : AI) :
  mines st ⊆ mines (MinesweeperAI.pass st).1 ∧
  safes st ⊆ safes (MinesweeperAI.pass st).1.
Proof.
  rewrite pass_unfold. simpl. rewrite marked_mines, marked_safes. set_solver.
Qed.

Lemma update_knowledge_grows (fuel : nat) (st st' : AI) :
  MinesweeperAI.update_knowledge fuel st = Some st' →
  mines st ⊆ mines st' ∧ safes st ⊆ safes st'.
Proof.
  revert st. induction fuel as [|k IH]; intros st; simpl; [done|].
  pose proof (pass_grows st) as [Hm Hs].
  destruct (MinesweeperAI.pass st) as [st1 [|]]; simpl in *.
  - intros [Hm' Hs']%IH. set_solver.
  - by intros [= <-].
Qed.

Lemma record_clue_fields (c : cell) (n : Z) (st : AI) :
  height (MinesweeperAI.record_clue c n st) = height st ∧
  width (MinesweeperAI.record_clue c n st) = width st ∧
  moves_made (MinesweeperAI.record_clue c n st) = {[c]} ∪ moves_made st ∧
  mines (MinesweeperAI.record_clue c n st) = mines st ∧
  safes (MinesweeperAI.record_clue c n st) = {[c]} ∪ safes st.
Proof.
  unfold MinesweeperAI.record_clue.
  destruct (MinesweeperAI.scan _ c) as [nb z]. by case_bool_decide.
Qed.

(** X7: a completed [add_knowledge(cell, count)] adds exactly [cell] to
    [moves_made], leaves [cell] among the proven safes, never forgets a
    proven mine or safe, and keeps the board size; this holds for every
    state and every clue. *)
Theorem add_knowledge_effect (fuel : nat) (c : cell) (n : Z) (st st' : AI) :
  MinesweeperAI.add_knowledge fuel c n st = Some st' →
  moves_made st' = {[c]} ∪ moves_made st ∧
  c ∈ safes st' ∧
  mines st ⊆ mines st' ∧ safes st ⊆ safes st' ∧
  height st' = height st ∧ width st' = width st.
Proof.
  unfold MinesweeperAI.add_knowledge. intros Hrun.
  destruct (record_clue_fields c n st) as (Hh & Hw & Hmv & Hmi & Hsa).
  destruct (update_knowledge_frame _ _ _ Hrun) as (Hh' & Hw' & Hmv').
  destruct (update_knowledge_grows _ _ _ Hrun) as [Hmi' Hsa'].
  rewrite Hmi in Hmi'. rewrite Hsa in Hsa'.
  split_and!; [congruence|set_solver|done|set_solver|congruence|congruence].
Qed.

Lemma add_knowledge_effect_witness :
  moves_made corner_two_moves = {[ (0, 1) ]} ∪ moves_made corner_once ∧
  (0, 1) ∈ safes corner_two_moves ∧
  mines corner_once ⊆ mines corner_two_moves ∧
  safes corner_once ⊆ safes corner_two_moves ∧
  height corner_two_moves = height corner_once ∧
  width corner_two_moves = width corner_once.
Proof.
  apply (add_knowledge_effect 1 (0, 1) 1 corner_once corner_two_moves).
  apply corner_two_moves_run.
Defined.

Lemma line_once_run :
  MinesweeperAI.add_knowledge 2 (0, 2) 0 (MinesweeperAI.init 1 3)
  = Some line_once.
Proof. vm_compute. reflexivity. Qed.

Lemma line_clue_02 : valid_clue line_game (0, 2) 0.
Proof.
  split_and!; try (simpl; lia).
  - apply (bool_decide_unpack _). vm_compute. exact I.
  - vm_compute. reflexivity.
Qed.

Lemma line_once_reachable : reachable line_game line_once.
Proof.
  apply (reachable_add line_game (MinesweeperAI.init 1 3) line_once
           (0, 2) 0 2).
  - apply (reachable_init line_game).
  - apply line_clue_02.
  - apply line_once_run.
Qed.

Lemma safe_move_is_safe_witness :
  (0, 1) ∉ Minesweeper.mines line_game ∧ (0, 1) ∉ moves_made line_once.
Proof.
  apply (safe_move_is_safe line_game [(0, 2); (0, 1)] line_once (0, 1)).
  - apply line_once_reachable.
  - intros x. unfold line_once. simpl.
    rewrite !elem_of_cons, elem_of_nil, elem_of_union, !elem_of_singleton.
    tauto.
  - vm_compute. reflexivity.
Defined.

(** ** The knowledge stays on the board *)

Lemma all_cells_ext (st st' : AI) :
  height st' = height st → width st' = width st →
  MinesweeperAI.all_cells st' = MinesweeperAI.all_cells st.
Proof. unfold MinesweeperAI.all_cells. by intros -> ->. Qed.

Lemma pass_within (U : gset cell) (st : AI) :
  within U st → within U (MinesweeperAI.pass st).1.
Proof.
  intros Hst. pose proof Hst as (_ & _ & _ & Hb).
  pose proof (extract_mines_bounded U st Hb) as Hem.
  pose proof (extract_safes_bounded U st Hb) as Hes.
  apply pass_invariant; [done|..]; unfold within, bounded; simpl.
  - intros c st' Hc (Hmv & Hmi & Hsa & Hk). split_and!; try done.
    + set_solver.
    + intros s (t & -> & Ht)%list_elem_of_fmap.
      rewrite cells_Sentence_mark_mine. specialize (Hk t Ht). set_solver.
  - intros c st' Hc (Hmv & Hmi & Hsa & Hk). split_and!; try done.
    + set_solver.
    + intros s (t & -> & Ht)%list_elem_of_fmap.
      rewrite cells_Sentence_mark_safe. specialize (Hk t Ht). set_solver.
  - intros st' (Hmv & Hmi & Hsa & Hk). split_and!; try done.
    intros s [_ Hs]%list_elem_of_filter. auto.
  - intros st' (Hmv & Hmi & Hsa & Hk). split_and!; try done.
    intros s [Hs|Hs]%elem_of_app; [auto|].
    apply combine_sound in Hs as [(s1 & s2 & Hs1 & _ & _ & ->) _].
    simpl. specialize (Hk s1 Hs1). set_solver.
Qed.

Lemma update_knowledge_within (U : gset cell) (fuel : nat) (st st' : AI) :
  within U st → MinesweeperAI.update_knowledge fuel st = Some st' →
  within U st'.
Proof.
  revert st. induction fuel as [|k IH]; intros st Hst; simpl; [done|].
  pose proof (pass_within U st Hst) as Hp.
  destruct (MinesweeperAI.pass st) as [st1 [|]]; simpl in *.
  - by apply IH.
  - by intros [= <-].
Qed.

Lemma record_clue_on_board (c : cell) (n : Z) (st : AI) :
  on_board st → c ∈ MinesweeperAI.all_cells st →
  within (MinesweeperAI.all_cells st) (MinesweeperAI.record_clue c n st).
Proof.
  intros (Hmv & Hmi & Hsa & Hk) Hc. unfold MinesweeperAI.record_clue.
  set (st0 := MinesweeperAI.mark_safe c _).
  assert (within (MinesweeperAI.all_cells st) st0) as (Hmv0 & Hmi0 & Hsa0 & Hk0).
  { unfold within, bounded. simpl. split_and!; [set_solver|done|set_solver|].
    intros s (t & -> & Ht)%list_elem_of_fmap.
    rewrite cells_Sentence_mark_safe. specialize (Hk t Ht). set_solver. }
  destruct (MinesweeperAI.scan st0 c) as [nb z] eqn:Hscan.
  case_bool_decide; [|done].
  unfold within, bounded. simpl. split_and!; try done.
  intros s [Hs| ->%list_elem_of_singleton]%elem_of_app; [by apply Hk0|].
  simpl. intros x Hx.
  assert (x ∈ (MinesweeperAI.scan st0 c).1) as Hx' by by rewrite Hscan.
  apply elem_of_scan in Hx' as (_ & (_ & Hi & Hj) & _).
  apply elem_of_all_cells. done.
Qed.

Lemma valid_clue_on_board (g : Minesweeper.game) (c : cell) (n : Z) (st : AI) :
  agrees g st → valid_clue g c n → c ∈ MinesweeperAI.all_cells st.
Proof.
  intros (Hh & Hw & _) (Hi & Hj & _). apply elem_of_all_cells.
  by rewrite Hh, Hw.
Qed.

Lemma reachable_within (g : Minesweeper.game) (st : AI) :
  reachable g st → on_board st.
Proof.
  induction 1 as [|st st' c n fuel Hr IH Hclue Hadd].
  - unfold on_board, within, bounded. simpl. split_and!; set_solver.
  - pose proof (reachable_agrees g st Hr) as Hag.
    destruct (update_knowledge_frame _ _ _ Hadd) as (Hh' & Hw' & _).
    destruct (record_clue_fields c n st) as (Hh0 & Hw0 & _).
    unfold on_board. rewrite (all_cells_ext st st') by congruence.
    apply (update_knowledge_within _ fuel (MinesweeperAI.record_clue c n st));
      [|exact Hadd].
    apply record_clue_on_board; [done|]. by eapply valid_clue_on_board.
Qed.

(** X8: in every reachable state all played cells, proven mines, proven
    safes and cells of sentences are cells of the board. *)
Theorem reachable_on_board (g : Minesweeper.game) (st : AI) :
  reachable g st →
  ∀ x, (x ∈ moves_made st ∨ x ∈ mines st ∨ x ∈ safes st
        ∨ ∃ s, s ∈ knowledge st ∧ x ∈ cells s) →
       (0 ≤ x.1 < Minesweeper.height g) ∧ (0 ≤ x.2 < Minesweeper.width g).
Proof.
  intros Hr.
  destruct (reachable_within g st Hr) as (Hmv & Hmi & Hsa & Hk).
  pose proof (reachable_agrees g st Hr) as (Hh & Hw & _).
  intros x Hx. rewrite <- Hh, <- Hw. apply elem_of_all_cells.
  destruct Hx as [Hx|[Hx|[Hx|(s & Hs & Hx)]]]; [set_solver..|].
  by apply (Hk s Hs).
Qed.

Lemma reachable_on_board_witness :
  (0 ≤ (0, 1).1 < Minesweeper.height corner_game)
  ∧ (0 ≤ (0, 1).2 < Minesweeper.width corner_game).
Proof.
  apply (reachable_on_board corner_game corner_two_moves
           corner_two_moves_reachable (0, 1)).
  left. apply (bool_decide_unpack _). vm_compute. exact I.
Defined.

(** ** add_knowledge always returns during a game *)

Lemma size_list_to_set_cells_le (l : list cell) :
  (size (list_to_set l : gset cell) ≤ length l)%nat.
Proof.
  induction l as [|x l IH].
  - change (list_to_set [] : gset cell) with (∅ : gset cell).
    rewrite size_empty. simpl. lia.
  - change (list_to_set (x :: l) : gset cell)
      with ({[x]} ∪ list_to_set l : gset cell).
    rewrite size_union_alt, size_singleton. simpl.
    assert (size ((list_to_set l : gset cell) ∖ {[x]})
            ≤ size (list_to_set l : gset cell))%nat; [|lia].
    apply subseteq_size. set_solver.
Qed.

Lemma length_range (a b : Z) : length (range a b) = Z.to_nat (b - a).
Proof. unfold range. by rewrite length_fmap, length_seq. Qed.

Lemma length_row (i : Z) (l : list Z) :
  length (j ← l; [(i, j)]) = length l.
Proof.
  induction l as [|j l IH]; csimpl; [done|]. by rewrite IH.
Qed.

Lemma length_product (l1 l2 : list Z) :
  length (i ← l1; j ← l2; [(i, j)]) = (length l1 * length l2)%nat.
Proof.
  induction l1 as [|i l1 IH]; csimpl; [done|].
  by rewrite length_app, length_row, IH.
Qed.

Lemma size_all_cells (st : AI) :
  (size (MinesweeperAI.all_cells st)
   ≤ Z.to_nat (height st) * Z.to_nat (width st))%nat.
Proof.
  unfold MinesweeperAI.all_cells.
  etrans; [apply size_list_to_set_cells_le|].
  rewrite length_product, !length_range. by rewrite !Z.sub_0_r.
Qed.

Lemma passes_bound_mono (a b : nat) :
  (a ≤ b)%nat → ((2 * a + 1) * (2 ^ a + 1) ≤ (2 * b + 1) * (2 ^ b + 1))%nat.
Proof.
  intros Hab.
  assert (2 ^ a ≤ 2 ^ b)%nat by (apply Nat.pow_le_mono_r; lia). nia.
Qed.

(** X9: during a game [add_knowledge] always returns: from a reachable
    state and with a clue of the board, the loop stops within
    [(2N + 1) * (2^N + 1)] passes, [N = height * width]. *)
Theorem add_knowledge_terminates (g : Minesweeper.game) (st : AI)
    (c : cell) (n : Z) (fuel : nat) :
  reachable g st → valid_clue g c n →
  let N := (Z.to_nat (height st) * Z.to_nat (width st))%nat in
  ((2 * N + 1) * (2 ^ N + 1) ≤ fuel)%nat →
  ∃ st', MinesweeperAI.add_knowledge fuel c n st = Some st'.
Proof.
  intros Hr Hclue N Hfuel. unfold MinesweeperAI.add_knowledge.
  pose proof (reachable_agrees g st Hr) as Hag.
  set (U := MinesweeperAI.all_cells st).
  set (st0 := MinesweeperAI.record_clue c n st).
  destruct (update_knowledge_measure (Minesweeper.mines g) U
              (S (measure U st0)) st0) as [st' Hrun].
  - by apply record_clue_agrees.
  - apply record_clue_on_board.
    + by apply (reachable_within g).
    + by eapply valid_clue_on_board.
  - lia.
  - exists st'. apply (update_knowledge_fuel_mono (S (measure U st0)));
      [done|].
    pose proof (measure_bound U st0) as Hm.
    pose proof (passes_bound_mono _ _ (size_all_cells st)) as Hb.
    subst U N. lia.
Qed.

Lemma add_knowledge_terminates_witness :
  ∃ st', MinesweeperAI.add_knowledge 153 (0, 1) 1 corner_once = Some st'.
Proof.
  apply (add_knowledge_terminates corner_game corner_once (0, 1) 1 153).
  - apply corner_once_reachable.
  - apply corner_clue_01.
  - apply (bool_decide_unpack _). vm_compute. exact I.
Defined.

(** ** Undecided sentences *)

Lemma reachable_stable (g : Minesweeper.game) (st : AI) :
  reachable g st → MinesweeperAI.pass st = (st, false).
Proof.
  destruct 1 as [|st0 st' c n fuel _ _ Hadd].
  - vm_compute. reflexivity.
  - by apply (update_knowledge_stable fuel _ _ Hadd).
Qed.

(** On a stable object whose sentences avoid the proven cells, no sentence
    is empty, all mines or all safe. *)
Lemma stable_undecided (M : gset cell) (st : AI) (s : sentence) :
  MinesweeperAI.pass st = (st, false) → clean st → knowledge_ok M st →
  s ∈ knowledge st →
  cells s ≠ ∅ ∧ 0 < count s < Z.of_nat (size (cells s)).
Proof.
  intros (Hm & Hsa & Hne & _)%pass_stable_iff Hclean Hk Hs.
  destruct (Hclean s Hs) as [Hcm Hcs].
  rewrite Forall_forall in Hne. specialize (Hne s Hs).
  unfold knowledge_ok in Hk. rewrite Forall_forall in Hk.
  pose proof (sentence_ok_bounds M s (Hk s Hs)) as Hrange.
  split; [done|]. split.
  - destruct (decide (count s = 0)) as [Hz|Hz]; [|lia]. exfalso.
    apply Hne. apply set_eq. intros x. split; [|set_solver]. intros Hx.
    assert (x ∈ safes st); [|set_solver].
    apply Hsa, elem_of_extract_safes. exists s. split; [done|].
    unfold Sentence.known_safes. by rewrite bool_decide_eq_true_2.
  - destruct (decide (count s = Z.of_nat (size (cells s)))) as [Hz|Hz]; [|lia].
    exfalso.
    apply Hne. apply set_eq. intros x. split; [|set_solver]. intros Hx.
    assert (x ∈ mines st); [|set_solver].
    apply Hm, elem_of_extract_mines. exists s. split; [done|].
    unfold Sentence.known_mines. by rewrite bool_decide_eq_true_2.
Qed.

(** X10: in every reachable state no sentence mentions a proven mine or a
    proven safe cell, no sentence is empty, and every sentence is still
    undecided: [0 < count < len(cells)]. *)
Theorem sentences_undecided (g : Minesweeper.game) (st : AI) :
  reachable g st →
  ∀ s, s ∈ knowledge st →
       cells s ∩ mines st = ∅ ∧ cells s ∩ safes st = ∅ ∧
       cells s ≠ ∅ ∧ 0 < count s < Z.of_nat (size (cells s)).
Proof.
  intros Hr s Hs.
  destruct (reachable_clean g st Hr s Hs) as [Hcm Hcs].
  pose proof (reachable_agrees g st Hr) as (_ & _ & _ & _ & Hk).
  destruct (stable_undecided (Minesweeper.mines g) st s) as (Hne & Hlo & Hhi);
    [by apply (reachable_stable g)|by apply (reachable_clean g)|done|done|].
  split_and!; [set_solver|set_solver|done|done|done].
Qed.

Lemma sentences_undecided_witness :
  cells (Sentence_init {[ (0, 0); (1, 0) ]} 1) ∩ mines corner_two_moves = ∅ ∧
  cells (Sentence_init {[ (0, 0); (1, 0) ]} 1) ∩ safes corner_two_moves = ∅ ∧
  cells (Sentence_init {[ (0, 0); (1, 0) ]} 1) ≠ ∅ ∧
  0 < count (Sentence_init {[ (0, 0); (1, 0) ]} 1)
    < Z.of_nat (size (cells (Sentence_init {[ (0, 0); (1, 0) ]} 1))).
Proof.
  apply (sentences_undecided corner_game corner_two_moves
           corner_two_moves_reachable).
  left.
Defined.

(** ** The result of the loop is a fixpoint *)

(** X11: when [update_knowledge] returns, running it again changes
    nothing and needs a single pass. *)
Theorem update_knowledge_idempotent (fuel : nat) (st st' : AI) :
  MinesweeperAI.update_knowledge fuel st = Some st' →
  ∀ fuel', (1 ≤ fuel')%nat →
           MinesweeperAI.update_knowledge fuel' st' = Some st'.
Proof.
  intros Hrun%update_knowledge_stable fuel' Hfuel.
  apply (update_knowledge_fuel_mono 1); [|done].
  cbn [MinesweeperAI.update_knowledge]. by rewrite Hrun.
Qed.

Lemma corner_two_moves_fix :
  MinesweeperAI.update_knowledge 1 corner_two_moves = Some corner_two_moves.
Proof. vm_compute. reflexivity. Qed.

Lemma update_knowledge_idempotent_witness :
  MinesweeperAI.update_knowledge 3 corner_two_moves = Some corner_two_moves.
Proof.
  apply (update_knowledge_idempotent 1 corner_two_moves corner_two_moves
           corner_two_moves_fix 3).
  lia.
Defined.

(** X12: when [update_knowledge] returns, the knowledge list is saturated:
    it has no sentence without cells, every cell of a sentence whose count
    equals its size is in [mines], every cell of a sentence with count 0
    is in [safes], and for two different sentences [A], [B] with [B.cells]
    a subset of [A.cells] and [B.count <= A.count] the difference is in
    the list. *)
Theorem update_knowledge_saturated (fuel : nat) (st st' : AI) :
  MinesweeperAI.update_knowledge fuel st = Some st' →
  (∀ s, s ∈ knowledge st' → cells s ≠ ∅) ∧
  (∀ s, s ∈ knowledge st' → count s = Z.of_nat (size (cells s)) →
        cells s ⊆ mines st') ∧
  (∀ s, s ∈ knowledge st' → count s = 0 → cells s ⊆ safes st') ∧
  (∀ A B, A ∈ knowledge st' → B ∈ knowledge st' → A ≠ B →
          cells B ⊆ cells A → count B ≤ count A →
          Sentence_init (cells A ∖ cells B) (count A - count B)
          ∈ knowledge st').
Proof.
  intros Hrun%update_knowledge_stable.
  apply pass_stable_iff in Hrun as (Hm & Hs & Hne & Hc).
  rewrite Forall_forall in Hne. split_and!.
  - done.
  - intros s Hin Hcnt x Hx. apply Hm, elem_of_extract_mines.
    exists s. split; [done|]. unfold Sentence.known_mines.
    by rewrite bool_decide_eq_true_2.
  - intros s Hin Hcnt x Hx. apply Hs, elem_of_extract_safes.
    exists s. split; [done|]. unfold Sentence.known_safes.
    by rewrite bool_decide_eq_true_2.
  - intros A B HA HB Hneq Hsub Hle.
    rewrite combine_nil in Hc. apply (Hc A B HA HB).
    split_and!; [done|done|by apply Hne|lia].
Qed.

Lemma update_knowledge_saturated_witness :
  (∀ s, s ∈ knowledge corner_two_moves → cells s ≠ ∅) ∧
  (∀ s, s ∈ knowledge corner_two_moves →
        count s = Z.of_nat (size (cells s)) →
        cells s ⊆ mines corner_two_moves) ∧
  (∀ s, s ∈ knowledge corner_two_moves → count s = 0 →
        cells s ⊆ safes corner_two_moves) ∧
  (∀ A B, A ∈ knowledge corner_two_moves → B ∈ knowledge corner_two_moves →
          A ≠ B → cells B ⊆ cells A → count B ≤ count A →
          Sentence_init (cells A ∖ cells B) (count A - count B)
          ∈ knowledge corner_two_moves).
Proof.
  exact (update_knowledge_saturated 1 corner_two_moves corner_two_moves
           corner_two_moves_fix).
Defined.

(** ** Building a board *)

(** X13: the constructor raises [ValueError] for a negative mine count and
    for a mine count of at least [height * width]; otherwise it raises
    [OverflowError] when [height * width] does not convert to a float, and
    with a positive count on a non-positive height it fails in
    [randrange].  These are its only exceptions, so a board is built only
    for [0 <= mines < height * width] below the float limit, and a board
    without mines is then built without drawing. *)
Theorem init_validation (h w n : Z) (draws : list cell) :
  (Minesweeper.init h w n draws = Minesweeper.Raised Minesweeper.NegativeMines
   ↔ n < 0) ∧
  (Minesweeper.init h w n draws = Minesweeper.Raised Minesweeper.TooManyMines
   ↔ 0 ≤ n ∧ h * w ≤ n) ∧
  (Minesweeper.init h w n draws = Minesweeper.Raised Minesweeper.FloatOverflow
   ↔ 0 ≤ n < h * w ∧ Minesweeper.float_limit ≤ h * w) ∧
  (Minesweeper.init h w n draws = Minesweeper.Raised Minesweeper.EmptyRange
   ↔ 0 < n < h * w ∧ h * w < Minesweeper.float_limit ∧ h ≤ 0) ∧
  (∀ g, Minesweeper.init h w n draws = Minesweeper.Built g →
        0 ≤ n < h * w ∧ h * w < Minesweeper.float_limit) ∧
  (n = 0 → 0 < h * w < Minesweeper.float_limit →
   Minesweeper.init h w n draws = Minesweeper.Built (Minesweeper.Game h w ∅)).
Proof.
  unfold Minesweeper.init.
  destruct (decide (n < 0)) as [H1|H1].
  { rewrite (bool_decide_eq_true_2 _ H1).
    split_and!; try (split; [done|lia]); try done; intros; lia. }
  rewrite (bool_decide_eq_false_2 _ H1).
  destruct (decide (h * w ≤ n)) as [H2|H2].
  { rewrite (bool_decide_eq_true_2 _ H2).
    split_and!; try (split; [done|lia]); try done; intros; try lia.
    split; [lia|done]. }
  rewrite (bool_decide_eq_false_2 _ H2).
  destruct (decide (Minesweeper.float_limit ≤ h * w)) as [H5|H5].
  { rewrite (bool_decide_eq_true_2 _ H5).
    split_and!; try (split; [done|lia]); try done; intros; try lia.
    split; [lia|done]. }
  rewrite (bool_decide_eq_false_2 _ H5).
  destruct (decide (0 < n)) as [H3|H3].
  - rewrite (bool_decide_eq_true_2 _ H3).
    destruct (decide (h ≤ 0)) as [H4|H4].
    + rewrite (bool_decide_eq_true_2 _ H4).
      split_and!; try (split; [done|lia]); try done; intros; try lia.
      split; [lia|done].
    + rewrite (bool_decide_eq_false_2 _ H4).
      destruct (Minesweeper.place draws n ∅);
        split_and!; try (split; [done|lia]); try done; intros; lia.
  - rewrite (bool_decide_eq_false_2 _ H3).
    split_and!; try (split; [done|lia]); try done; intros; lia.
Qed.

Lemma small_board_converts : 2 * 2 < Minesweeper.float_limit.
Proof. vm_compute. reflexivity. Qed.

Lemma init_validation_witness :
  Minesweeper.init 2 2 0 [] = Minesweeper.Built (Minesweeper.Game 2 2 ∅).
Proof.
  destruct (init_validation 2 2 0 []) as (_ & _ & _ & _ & _ & H).
  apply H; [done|]. split; [lia|apply small_board_converts].
Defined.

Lemma place_spec (draws : list cell) (n : Z) (placed M : gset cell) :
  Minesweeper.place draws n placed = Some M →
  Z.of_nat (size M) = n ∧ placed ⊆ M ∧ M ⊆ placed ∪ list_to_set draws.
Proof.
  revert placed. induction draws as [|ij rest IH]; intros placed; simpl.
  - case_bool_decide; [|done]. intros [= <-]. set_solver.
  - case_bool_decide; [intros [= <-]; set_solver|].
    case_bool_decide; intros (Hn & Hsub & Hsup)%IH; set_solver.
Qed.

Lemma place_enough (draws : list cell) (n : Z) (placed : gset cell) :
  Z.of_nat (size placed) ≤ n →
  n ≤ Z.of_nat (size (placed ∪ list_to_set draws)) →
  ∃ M, Minesweeper.place draws n placed = Some M.
Proof.
  revert placed. induction draws as [|ij rest IH]; intros placed Hle Hge;
    simpl in *.
  - rewrite (right_id_L ∅ (∪)) in Hge.
    rewrite bool_decide_eq_true_2 by lia. eauto.
  - case_bool_decide as Hn; [eauto|].
    case_bool_decide as Hin.
    + apply IH; [done|].
      replace (placed ∪ list_to_set rest)
        with (placed ∪ ({[ij]} ∪ list_to_set rest)) by set_solver. done.
    + apply IH.
      * rewrite size_union by set_solver. rewrite size_singleton. lia.
      * replace ({[ij]} ∪ placed ∪ list_to_set rest)
          with (placed ∪ ({[ij]} ∪ list_to_set rest)) by set_solver. done.
Qed.

(** X14: when the constructor returns a board and every drawn pair is in
    range, as [randrange] guarantees, the board has the requested size and
    exactly the requested number of mines, all of them on the board and
    all of them at drawn positions. *)
Theorem init_places_mines (h w n : Z) (draws : list cell)
    (g : Minesweeper.game) :
  (∀ ij, ij ∈ draws → (0 ≤ ij.1 < h) ∧ (0 ≤ ij.2 < w)) →
  Minesweeper.init h w n draws = Minesweeper.Built g →
  Minesweeper.height g = h ∧ Minesweeper.width g = w ∧
  Z.of_nat (size (Minesweeper.mines g)) = n ∧
  (∀ ij, ij ∈ Minesweeper.mines g →
         ij ∈ draws ∧ (0 ≤ ij.1 < h) ∧ (0 ≤ ij.2 < w)) ∧
  n < h * w.
Proof.
  intros Hdraws Hinit.
  unfold Minesweeper.init in Hinit.
  case_bool_decide as H1; [done|].
  case_bool_decide as H2; [done|].
  case_bool_decide as H5; [done|].
  destruct (decide (0 < n)) as [H3|H3].
  - rewrite (bool_decide_eq_true_2 _ H3) in Hinit.
    case_bool_decide; [done|].
    destruct (Minesweeper.place draws n ∅) as [M|] eqn:Hplace; [|done].
    injection Hinit as <-. simpl.
    apply place_spec in Hplace as (Hn & _ & Hsup).
    split_and!; [done|done|done| |lia].
    intros ij Hij. assert (ij ∈ draws) as Hd by set_solver.
    split; [done|]. by apply Hdraws.
  - rewrite (bool_decide_eq_false_2 _ H3) in Hinit.
    injection Hinit as <-. simpl.
    split_and!; [done|done| |set_solver|lia].
    change (Z.of_nat (size (∅ : gset cell)) = n). rewrite size_empty. lia.
Qed.

Lemma init_places_mines_witness :
  Minesweeper.height corner_game = 2 ∧ Minesweeper.width corner_game = 2 ∧
  Z.of_nat (size (Minesweeper.mines corner_game)) = 1 ∧
  (∀ ij, ij ∈ Minesweeper.mines corner_game →
         ij ∈ [(0, 0)] ∧ (0 ≤ ij.1 < 2) ∧ (0 ≤ ij.2 < 2)) ∧
  1 < 2 * 2.
Proof.
  apply (init_places_mines 2 2 1 [(0, 0)] corner_game).
  - intros ij ->%list_elem_of_singleton. simpl. lia.
  - vm_compute. reflexivity.
Defined.

(** X15: for a positive mine count below [height * width], a board size
    that converts to a float, a positive height and draws in range, the
    placement loop ends exactly when the draws hold at least [mines]
    different positions; drawing the same positions again never ends it. *)
Theorem init_needs_distinct_draws (h w n : Z) (draws : list cell) :
  (∀ ij, ij ∈ draws → (0 ≤ ij.1 < h) ∧ (0 ≤ ij.2 < w)) →
  0 < n < h * w → h * w < Minesweeper.float_limit → 0 < h →
  ((∃ g, Minesweeper.init h w n draws = Minesweeper.Built g) ↔
   n ≤ Z.of_nat (size (list_to_set draws : gset cell))) ∧
  (Minesweeper.init h w n draws = Minesweeper.Starved ↔
   Z.of_nat (size (list_to_set draws : gset cell)) < n).
Proof.
  intros _ Hn Hfl Hh. unfold Minesweeper.init.
  rewrite (bool_decide_eq_false_2 (n < 0)) by lia.
  rewrite (bool_decide_eq_false_2 (h * w ≤ n)) by lia.
  rewrite (bool_decide_eq_false_2 (Minesweeper.float_limit ≤ h * w)) by lia.
  rewrite (bool_decide_eq_true_2 (0 < n)) by lia.
  rewrite (bool_decide_eq_false_2 (h ≤ 0)) by lia.
  destruct (Minesweeper.place draws n ∅) as [M|] eqn:Hplace.
  - apply place_spec in Hplace as (HM & _ & Hsup).
    assert (size M ≤ size (list_to_set draws : gset cell))%nat
      by (apply subseteq_size; set_solver).
    split; split; try done; try lia; eauto.
  - assert (¬ n ≤ Z.of_nat (size (list_to_set draws : gset cell))) as Hlt.
    { intros Hge.
      destruct (place_enough draws n ∅) as [M HM].
      - rewrite size_empty. lia.
      - by rewrite (left_id_L ∅ (∪)).
      - congruence. }
    split; split; try done; try lia. by intros [g ?].
Qed.

Lemma init_needs_distinct_draws_witness :
  ((∃ g, Minesweeper.init 2 2 2 [(0, 0); (0, 0); (0, 0)] = Minesweeper.Built g)
   ↔ 2 ≤ Z.of_nat (size (list_to_set [(0, 0); (0, 0); (0, 0)] : gset cell))) ∧
  (Minesweeper.init 2 2 2 [(0, 0); (0, 0); (0, 0)] = Minesweeper.Starved ↔
   Z.of_nat (size (list_to_set [(0, 0); (0, 0); (0, 0)] : gset cell)) < 2).
Proof.
  apply (init_needs_distinct_draws 2 2 2 [(0, 0); (0, 0); (0, 0)]);
    [|lia|apply small_board_converts|lia].
  intros ij Hij. repeat (apply elem_of_cons in Hij as [->|Hij]; [simpl; lia|]).
  by apply elem_of_nil in Hij.
Defined.

(** ** A clue is kept until it is used up *)

Lemma add_knowledge_tracked (fuel : nat) (c : cell) (n : Z) (st st' : AI) :
  MinesweeperAI.add_knowledge fuel c n st = Some st' → tracked c st'.
Proof.
  unfold MinesweeperAI.add_knowledge. intros Hrun.
  destruct (record_clue_settled_tracked c n st) as (Hset0 & Htr0 & _).
  by destruct (update_knowledge_settled_tracked c fuel _ _ Hset0 Htr0 Hrun).
Qed.

(** X16: when [add_knowledge(cell, count)] returns, either every cell
    around [cell] on the board is a proven mine or a proven safe, or the
    cells around [cell] that are still unknown are exactly the cells of one
    sentence of the knowledge list; this holds for every state and clue. *)
Theorem clue_retained (fuel : nat) (c : cell) (n : Z) (st st' : AI) :
  MinesweeperAI.add_knowledge fuel c n st = Some st' →
  (∀ x, x ∈ block c → borders (height st') (width st') c x →
        x ∈ mines st' ∨ x ∈ safes st') ∨
  (∃ s, s ∈ knowledge st' ∧
        ∀ x, x ∈ cells s ↔
             x ∈ block c ∧ borders (height st') (width st') c x
             ∧ x ∉ mines st' ∧ x ∉ safes st').
Proof.
  intros [He|(s & Hs & Hc)]%add_knowledge_tracked.
  - left. intros x Hb Hx.
    destruct (decide (x ∈ mines st')) as [?|Hm]; [by left|].
    destruct (decide (x ∈ safes st')) as [?|Hsa]; [by right|].
    assert (x ∈ (MinesweeperAI.scan st' c).1) as Hin
      by (apply elem_of_scan; done).
    rewrite He in Hin. set_solver.
  - right. exists s. split; [done|]. intros x. rewrite Hc.
    apply elem_of_scan.
Qed.

Lemma clue_retained_witness :
  (∀ x, x ∈ block (0, 1) →
        borders (height corner_two_moves) (width corner_two_moves) (0, 1) x →
        x ∈ mines corner_two_moves ∨ x ∈ safes corner_two_moves) ∨
  (∃ s, s ∈ knowledge corner_two_moves ∧
        ∀ x, x ∈ cells s ↔
             x ∈ block (0, 1)
             ∧ borders (height corner_two_moves) (width corner_two_moves)
                 (0, 1) x
             ∧ x ∉ mines corner_two_moves ∧ x ∉ safes corner_two_moves).
Proof.
  exact (clue_retained 1 (0, 1) 1 corner_once corner_two_moves
           corner_two_moves_run).
Defined.

Lemma neighbours_decided_or_sentence (g : Minesweeper.game) (fuel : nat)
    (c : cell) (n : Z) (st st' : AI) :
  reachable g st → valid_clue g c n →
  MinesweeperAI.add_knowledge fuel c n st = Some st' →
  (∀ x, x ∈ neighbours g c → x ∈ mines st' ∨ x ∈ safes st') ∨
  (∃ s, s ∈ knowledge st' ∧ cells s ⊆ neighbours g c).
Proof.
  intros Hr Hclue Hadd.
  pose proof (add_knowledge_agrees g fuel c n st st'
                (reachable_agrees g st Hr) Hclue Hadd) as (Hh & Hw & _).
  destruct (add_knowledge_tracked fuel c n st st' Hadd)
    as [He|(s & Hs & Hc)].
  - left. intros x (Hb & Hx)%elem_of_list_to_set%list_elem_of_filter.
    destruct (decide (x ∈ mines st')) as [?|Hm]; [by left|].
    destruct (decide (x ∈ safes st')) as [?|Hsa]; [by right|].
    assert (x ∈ (MinesweeperAI.scan st' c).1) as Hin.
    { apply elem_of_scan. rewrite Hh, Hw. done. }
    rewrite He in Hin. set_solver.
  - right. exists s. split; [done|]. intros x Hx. rewrite Hc in Hx.
    apply elem_of_scan in Hx.
    apply elem_of_list_to_set, list_elem_of_filter.
    rewrite <- Hh, <- Hw. tauto.
Qed.

Lemma nearby_mines_size (g : Minesweeper.game) (c : cell) :
  Minesweeper.nearby_mines g c
  = Z.of_nat (size (neighbours g c ∩ Minesweeper.mines g)).
Proof.
  unfold Minesweeper.nearby_mines, neighbours.
  by rewrite nearby_fold, size_filter_inter by apply NoDup_block.
Qed.

(** X17: during a game, after [add_knowledge(cell, 0)] every cell around
    [cell] on the board is a proven safe. *)
Theorem zero_clue_clears_neighbours (g : Minesweeper.game) (fuel : nat)
    (c : cell) (st st' : AI) :
  reachable g st → valid_clue g c 0 →
  MinesweeperAI.add_knowledge fuel c 0 st = Some st' →
  neighbours g c ⊆ safes st'.
Proof.
  intros Hr Hclue Hadd.
  assert (reachable g st') as Hr' by by eapply reachable_add.
  pose proof (reachable_agrees g st' Hr') as (_ & _ & Hm & Hsa & Hk).
  assert (neighbours g c ∩ Minesweeper.mines g = ∅) as Hnone.
  { pose proof (nearby_mines_size g c) as Hcnt.
    destruct Hclue as (_ & _ & _ & Hz). rewrite <- Hz in Hcnt.
    apply leibniz_equiv, size_empty_inv. lia. }
  destruct (neighbours_decided_or_sentence g fuel c 0 st st' Hr Hclue Hadd)
    as [Hall|(s & Hs & Hc)].
  - intros x Hx. destruct (Hall x Hx) as [Hxm|?]; [|done]. set_solver.
  - exfalso.
    destruct (stable_undecided (Minesweeper.mines g) st' s)
      as (_ & Hpos & _);
      [by apply (reachable_stable g)|by apply (reachable_clean g)|done|done|].
    assert (cells s ∩ Minesweeper.mines g = ∅) as He by set_solver.
    unfold knowledge_ok in Hk. rewrite Forall_forall in Hk.
    rewrite (Hk s Hs), He, size_empty in Hpos. lia.
Qed.

Lemma zero_clue_clears_neighbours_witness :
  neighbours line_game (0, 2) ⊆ safes line_once.
Proof.
  apply (zero_clue_clears_neighbours line_game 2 (0, 2)
           (MinesweeperAI.init 1 3) line_once).
  - apply (reachable_init line_game).
  - apply line_clue_02.
  - apply line_once_run.
Defined.

(** X18: during a game, after a clue whose count is the number of cells
    around the revealed cell (all of them are mines), every cell around
    it is a proven mine. *)
Theorem full_clue_marks_neighbours (g : Minesweeper.game) (fuel : nat)
    (c : cell) (n : Z) (st st' : AI) :
  reachable g st → valid_clue g c n →
  n = Z.of_nat (size (neighbours g c)) →
  MinesweeperAI.add_knowledge fuel c n st = Some st' →
  neighbours g c ⊆ mines st'.
Proof.
  intros Hr Hclue Hfull Hadd.
  assert (reachable g st') as Hr' by by eapply reachable_add.
  pose proof (reachable_agrees g st' Hr') as (_ & _ & Hm & Hsa & Hk).
  assert (neighbours g c ⊆ Minesweeper.mines g) as Hallm.
  { pose proof (nearby_mines_size g c) as Hcnt.
    destruct Hclue as (_ & _ & _ & Hz). rewrite <- Hz, Hfull in Hcnt.
    assert (neighbours g c ∩ Minesweeper.mines g = neighbours g c) as Heq.
    { apply set_subseteq_size_eq; [set_solver|lia]. }
    set_solver. }
  destruct (neighbours_decided_or_sentence g fuel c n st st' Hr Hclue Hadd)
    as [Hall|(s & Hs & Hc)].
  - intros x Hx. destruct (Hall x Hx) as [?|Hxs]; [done|]. set_solver.
  - exfalso.
    destruct (stable_undecided (Minesweeper.mines g) st' s)
      as (_ & _ & Hlt);
      [by apply (reachable_stable g)|by apply (reachable_clean g)|done|done|].
    assert (cells s ∩ Minesweeper.mines g = cells s) as He by set_solver.
    unfold knowledge_ok in Hk. rewrite Forall_forall in Hk.
    rewrite (Hk s Hs), He in Hlt. lia.
Qed.

Lemma pair_once_run :
  MinesweeperAI.add_knowledge 2 (0, 1) 1 (MinesweeperAI.init 1 2)
  = Some pair_once.
Proof. vm_compute. reflexivity. Qed.

Lemma pair_clue_01 : valid_clue pair_game (0, 1) 1.
Proof.
  split_and!; try (simpl; lia).
  - apply (bool_decide_unpack _). vm_compute. exact I.
  - vm_compute. reflexivity.
Qed.

Lemma full_clue_marks_neighbours_witness :
  neighbours pair_game (0, 1) ⊆ mines pair_once.
Proof.
  apply (full_clue_marks_neighbours pair_game 2 (0, 1) 1
           (MinesweeperAI.init 1 2) pair_once).
  - apply (reachable_init pair_game).
  - apply pair_clue_01.
  - vm_compute. reflexivity.
  - apply pair_once_run.
Defined.

(** ** The sentence made from a clue *)

(** X19: before the loop starts, [add_knowledge(cell, count)] marks [cell]
    safe in every sentence and then, if some cell around [cell] on the
    board is neither a proven mine nor a proven safe, appends the sentence
    over exactly those cells with [count] minus the number of cells around
    [cell] that are proven mines; it appends nothing when every cell
    around [cell] is known. *)
Theorem record_clue_sentence (c : cell) (n : Z) (st : AI) :
  let unknown := around st c ∖ mines st ∖ safes st in
  (unknown = ∅ →
   knowledge (MinesweeperAI.record_clue c n st)
   = (Sentence.mark_safe c <$> knowledge st)) ∧
  (unknown ≠ ∅ →
   knowledge (MinesweeperAI.record_clue c n st)
   = (Sentence.mark_safe c <$> knowledge st)
     ++ [Sentence_init unknown
           (n - Z.of_nat (size (around st c ∩ mines st)))]).
Proof.
  intros unknown. unfold MinesweeperAI.record_clue.
  set (st0 := MinesweeperAI.mark_safe c _).
  destruct (scan_closed st0 c) as [H1 H2].
  assert (around st0 c = around st c) as Ha by done.
  assert ((MinesweeperAI.scan st0 c).1 = unknown) as H1'.
  { rewrite H1, Ha. unfold unknown. simpl. apply set_eq. intros x.
    rewrite !elem_of_difference, elem_of_union, elem_of_singleton.
    unfold around. rewrite elem_of_list_to_set, list_elem_of_filter.
    unfold borders. tauto. }
  rewrite Ha in H2.
  destruct (MinesweeperAI.scan st0 c) as [nb z]. simpl in H1', H2.
  rewrite H1', H2. split; intros Hu.
  - rewrite bool_decide_eq_false_2; [done|]. intros Hn. by apply Hn.
  - by rewrite bool_decide_eq_true_2.
Qed.

Lemma record_clue_sentence_witness :
  knowledge (MinesweeperAI.record_clue (0, 1) 1 corner_once)
  = (Sentence.mark_safe (0, 1) <$> knowledge corner_once)
    ++ [Sentence_init
          (around corner_once (0, 1) ∖ mines corner_once ∖ safes corner_once)
          (1 - Z.of_nat (size (around corner_once (0, 1) ∩ mines corner_once)))].
Proof.
  destruct (record_clue_sentence (0, 1) 1 corner_once) as [_ H].
  apply H. apply (bool_decide_unpack _). vm_compute. exact I.
Defined.
